(* ===== verification/_CoqProject ===== *)
-Q . S2P
Prelude.v
CheckedArith.v
Engine.v
RegisterInfo.v
Registers.v
StackRegister.v
Equiv.v
Session.v
Abstract.v
Scenarios.v
