(* ===== verification/Prelude.v ===== *)
(** * A verified model of the register abstraction of mips-runner

    The program is [src/mips-runner/src/registers.rs] (67 lines): the register
    layer that the MIPS runner puts over the Unicorn CPU emulator.  It has
    four parts, and they interact as follows.

    - [RegisterInfo] (lines 56-67): the per-architecture record naming the
      Unicorn register ids of the program counter and the stack pointer, built
      once by [RegisterInfo::new] and stored in the emulator's user data
      ([crate::data::Data], field [register_info]).
    - The trait [Registers] (lines 5-10) and its implementation for
      [Unicorn<'a, Data>] (lines 38-54): [read]/[write] forward to the
      engine's [reg_read]/[reg_write]; [pc]/[set_pc] look the PC id up in
      [register_info] and call [read]/[write].
    - The trait [StackRegister] (lines 11-25) with its provided method
      [incr_sp] (lines 17-24), and its implementation for [Unicorn<'a, Data>]
      (lines 26-36): [sp]/[set_sp] look the SP id up and call the [Registers]
      methods; [incr_sp] reads SP, adds a signed delta with
      [u64::checked_add_signed], reports overflow as [uc_error::EXCEPTION]
      and otherwise writes the new SP back.
    - The engine (the [unicorn_engine] crate) and [u64::checked_add_signed]
      (Rust's core library): not code of this repository.  They are modelled
      from the spec (section 6) and from the documented behaviour of the
      library, and marked spec_modelled in the manifest.

    ** Files

    - [Prelude] (this file): the Rust [Result] type, [Option::ok_or], the
      [Into<i32>] conversion as a class, machine-integer ranges and
      narrowing, the state-and-error monad [StM] for [&mut self] methods with
      its [do] notation in [omo_scope], the hint database [omo] and the
      tactics shared by the other files.
    - [CheckedArith]: [overflowing_add], [overflowing_add_signed] and
      [checked_add_signed] on [u64] as Rust's core library computes them
      (wrapping add, carry flag, xor with the sign of the delta), proved
      equal to the mathematical reference "Some (a + d) when it fits in u64".
    - [Engine]: [uc_error]; the interface [Engine] (a class with [reg_read],
      [reg_write] and the register width) and its laws [EngineLaws]
      (read-after-write up to narrowing, frame, atomic failure, a write
      that fails exactly where a read fails, bounds); a
      concrete register-file engine [Uc] (a [gmap] from register ids to
      values, an architecture record with its width and its valid ids) that
      discharges the laws for widths 32 and 64.
    - [RegisterInfo]: the record, [RegisterInfo::new], and [Data].
    - [Registers]: the [Registers] trait as a class, the [Unicorn] context
      (engine state and user data), and the implementation; theorems on
      read-after-write, the redirection of [pc]/[set_pc] through
      [register_info.pc], frame and error behaviour, proved against
      [EngineLaws].
    - [StackRegister]: the trait as a class, the provided method [incr_sp]
      in a Section over any implementation, with its laws as Section
      hypotheses, and the [Unicorn] implementation; theorems on the result
      of [incr_sp] on every branch (success, overflow, read error, write
      error), its atomicity, and what [sp] reads afterwards.
    - [Equiv]: the observational equivalence [ctx_equiv] of contexts (same
      user data, every id reads alike), its [Equivalence] and [Proper]
      instances for every method, and the theorems on pairs of calls up to
      it: the [incr_sp] round trip and composition.
    - [Session]: the trait methods as calls ([Op]), [exec] and [run] (a
      sequence of calls stopping at the first error, as the runner's [?]
      does), and [targets_sp], the calls that may change the SP.
    - [Abstract]: the register machine the spec describes ([AbsMachine],
      [am_exec], [am_run]) and the simulation [run_refines] of it by the
      code.
    - [Scenarios]: two concrete register files (32 and 64 bits, ids 1 to
      33) with the [RegisterInfo::new(15, 29)] of spec section 8, and the
      witnesses that apply the general theorems to them by computation.

    ** Correspondence with the code

    A [&self] method is a function [C -> Result A uc_error]; a [&mut self]
    method is an [StM C uc_error A], a function from the state to the new
    state and the result.  The [?] operator is the [do] bind of [StM], which
    returns early with the error and the state reached so far.  A [u64] is a
    [Z] in [0, 2^64); an [i64] a [Z] in [-2^63, 2^63); an [i32] register id
    a [Z].  The engine narrows a written [u64] to its register width (the
    low bits, as Unicorn does for a 32-bit architecture on a little-endian
    host) and zero-extends what it reads.  The code has no loop and no
    recursion, so no definition needs fuel; the only bounds are the widths:
    [u64]/[i64] for [incr_sp], and a register width of 32 or 64 bits
    ([arch_width_ok], [reg_width_cases]), which covers MIPS32 and MIPS64.

    ** What the theorems show

    - Equivalence ([CheckedArith]): Rust's bit-level [checked_add_signed]
      is the exact sum when it fits, at every width.
    - Refinement and functional behaviour of [incr_sp] ([StackRegister]):
      for every implementation, [incr_sp] computes the contract
      [incr_sp_spec] ([incr_sp_refines]), with a lemma per branch (read
      error, overflow, write error, success).  For [Unicorn]: the success
      case on a 64-bit engine ([incr_sp_ok_64]), atomic failure on overflow
      ([incr_sp_overflow_atomic]) and the frame ([incr_sp_frame]).
    - Register access ([Registers]): read-after-write up to narrowing
      ([write_read_same]), a readable id is writable ([write_succeeds]),
      and [pc]/[sp] as redirections through
      [register_info] ([pc_after_raw_write], [set_pc_pc], [set_pc_frame],
      [sp_after_raw_write]).
    - A divergence from the spec: on a 32-bit engine [incr_sp] returns
      [s + d] but SP keeps [(s + d) mod 2^32] ([incr_sp_narrowed_32]);
      spec section 8 expects [sp()] to return [s + d].  For a pop
      ([d >= 0]) the guard never fires on a 32-bit engine, so SP wraps
      modulo [2^32] without an error ([incr_sp_pop_never_fails_32]).  The
      refinement [run_refines] holds at the width of the engine: the
      abstract [am_incr_sp] returns the unnarrowed sum while [am_write]
      narrows, which is where the two widths part.
    - A configuration the spec does not cover: [RegisterInfo::new] accepts
      equal PC and SP ids; [set_pc] then moves the stack pointer exactly
      when the two ids convert to the same [i32] ([set_pc_sp_aliasing]).
    - Observational equivalence ([Equiv]): every method respects
      [ctx_equiv]; [incr_sp d] then [incr_sp (-d)] is a round trip
      ([incr_sp_roundtrip]); [incr_sp d1; incr_sp d2] is [incr_sp (d1 + d2)]
      when every value fits ([incr_sp_compose]).
    - Sequences of calls ([Session]): a sequence of calls none of which
      targets the SP leaves [sp] as it was, whether it succeeds or stops
      at its first error ([run_sp_frame]).
    - Errors ([Registers], [StackRegister]): a failed [set_pc] or
      [set_sp] changes nothing and returns the error of the matching
      getter ([set_pc_err], [set_sp_err]); every failure of [incr_sp] on a
      [Unicorn] context is atomic, and its error is the SP read's or
      [EXCEPTION] ([incr_sp_err_atomic]), since the write cannot fail once
      the read succeeded.
    - Termination ([Session]): a loop of pushes [incr_sp d] with [d < 0]
      stops with [EXCEPTION] within [n] calls when [s < n * |d|], leaving
      SP at [s mod |d|] ([push_loop_stops]); on a 64-bit engine a loop of
      pops stops within [n] calls when [2^64 <= s + n * d]
      ([pop_loop_stops_64]).  The measure is the SP value, bounded by 0
      below and [u64::MAX] above.  On a 32-bit engine a pop loop never
      stops: after [n] pops SP is [(s + n * d) mod 2^32]
      ([pop_loop_wraps_32]).
    - Refinement ([Abstract]): the code, on any engine with [EngineLaws],
      simulates the abstract register machine of the spec for every
      sequence of calls whose [incr_sp] deltas are [i64]s ([run_refines]).

    ** What is not modelled, and why

    Every item and every line of registers.rs that carries behaviour is
    a definition here: the two traits, the provided [incr_sp], both impls
    for [Unicorn<'a, Data>], [RegisterInfo] and [RegisterInfo::new].  The
    lines left out are its three [use] declarations and blank lines.
    Nothing more of the program can be modelled faithfully from the
    sources, for these reasons:
    - The rest of mips-runner (the loader, memory map, hooks, the
      emulation loop and the command line) and crate::data::Data are not
      among the sources.  [Data] is modelled as far as registers.rs reads
      it: the field [register_info].
    - [unicorn_engine] is a library.  Only its register contract is
      modelled: [Engine] with [EngineLaws], and a register file [Uc] of
      width 32 or 64 that implements it.  Instruction execution, memory,
      hooks, and the effect of a PC write on Unicorn's translation loop
      are outside that contract.
    - The symbolic register enums of [unicorn_engine] (such as the MIPS
      register ids) are represented by their [i32] values through
      [IntoI32].  The ids mips-runner actually passes to
      [RegisterInfo::new] are in code that is not among the sources. *)

From stdpp Require Export base tactics decidable.
From Stdlib Require Export ZArith Lia.

Declare Scope omo_scope.
Delimit Scope omo_scope with omo.
Open Scope Z_scope.

Create HintDb omo discriminated.
Create Rewrite HintDb omo_rw.

(** ** Rust's [Result] and [Option::ok_or] *)

Inductive Result (T E : Type) : Type :=
| Ok (t : T)
| Err (e : E).
Arguments Ok {T E} t.
Arguments Err {T E} e.

(** [o.ok_or(e)] *)
Definition ok_or {T E : Type} (o : option T) (e : E) : Result T E :=
  match o with
  | Some t => Ok t
  | None => Err e
  end.

(** ** [impl Into<i32>]: a register id of any type with a conversion to the
    engine's [i32] index. *)

Class IntoI32 (T : Type) := into : T -> Z.
#[export] Instance IntoI32_i32 : IntoI32 Z := fun z => z.

(** ** Machine integers *)

Definition u64_max : Z := 2 ^ 64 - 1.

Definition in_u64 (z : Z) : bool := (0 <=? z) && (z <? 2 ^ 64).
Definition in_i64 (z : Z) : bool := (- 2 ^ 63 <=? z) && (z <? 2 ^ 63).

(** The low [w] bits of [v]: a [u64] narrowed to a [w]-bit register. *)
Definition low_bits (w v : Z) : Z := Z.land v (Z.ones w).

(** ** The state-and-error monad of [&mut self] methods *)

Definition StM (S E A : Type) : Type := S -> S * Result A E.

Definition st_ret {S E A : Type} (a : A) : StM S E A := fun s => (s, Ok a).

Definition st_bind {S E A B : Type} (m : StM S E A) (k : A -> StM S E B)
  : StM S E B :=
  fun s =>
    match m s with
    | (s', Ok a) => k a s'
    | (s', Err e) => (s', Err e)
    end.

(** A [Result] value used with [?]: no state change. *)
Definition st_lift {S E A : Type} (r : Result A E) : StM S E A :=
  fun s => (s, r).

(** [Result::map] *)
Definition res_map {A B E : Type} (f : A -> B) (r : Result A E) : Result B E :=
  match r with
  | Ok a => Ok (f a)
  | Err e => Err e
  end.

(** [Result::map] after a [&mut self] method. *)
Definition st_map {S E A B : Type} (f : A -> B) (m : StM S E A) : StM S E B :=
  fun s => let '(s', r) := m s in (s', res_map f r).

(** A [&self] method called from a [&mut self] method. *)
Definition st_ref {S E A : Type} (f : S -> Result A E) : StM S E A :=
  fun s => (s, f s).

(** [let x = m?; k] is [do x <- m ; k]; [m?; k] is [do _ <- m ; k]. *)
Notation "'do' x <- m ; k" := (st_bind m (fun x => k))
  (at level 60, x binder, m at next level, right associativity) : omo_scope.

#[global] Arguments st_bind {S E A B} m k s /.
#[global] Arguments st_ret {S E A} a s /.
#[global] Arguments st_lift {S E A} r s /.
#[global] Arguments st_ref {S E A} f s /.
#[global] Arguments st_map {S E A B} f m s /.

(** ** Shared lemmas *)

Lemma in_u64_spec (z : Z) : in_u64 z = true <-> 0 <= z < 2 ^ 64.
Proof. unfold in_u64. rewrite andb_true_iff, Z.leb_le, Z.ltb_lt. lia. Qed.

Lemma in_i64_spec (z : Z) : in_i64 z = true <-> - 2 ^ 63 <= z < 2 ^ 63.
Proof. unfold in_i64. rewrite andb_true_iff, Z.leb_le, Z.ltb_lt. lia. Qed.

Lemma in_u64_false (z : Z) : in_u64 z = false <-> z < 0 \/ 2 ^ 64 <= z.
Proof.
  rewrite <- not_true_iff_false, in_u64_spec. lia.
Qed.

Lemma low_bits_mod (w v : Z) : 0 <= w -> low_bits w v = v mod 2 ^ w.
Proof. intros Hw. unfold low_bits. apply Z.land_ones. exact Hw. Qed.

Lemma low_bits_range (w v : Z) : 0 <= w -> 0 <= low_bits w v < 2 ^ w.
Proof.
  intros Hw. rewrite low_bits_mod by exact Hw.
  apply Z.mod_pos_bound. apply Z.pow_pos_nonneg; lia.
Qed.

Lemma low_bits_small (w v : Z) : 0 <= w -> 0 <= v < 2 ^ w -> low_bits w v = v.
Proof. intros Hw Hv. rewrite low_bits_mod by exact Hw. apply Z.mod_small, Hv. Qed.

Lemma st_bind_ok {S E A B : Type} (m : StM S E A) (k : A -> StM S E B) s s' a :
  m s = (s', Ok a) -> st_bind m k s = k a s'.
Proof. intros H. simpl. rewrite H. reflexivity. Qed.

Lemma st_bind_err {S E A B : Type} (m : StM S E A) (k : A -> StM S E B) s s' e :
  m s = (s', Err e) -> st_bind m k s = (s', Err e).
Proof. intros H. simpl. rewrite H. reflexivity. Qed.

#[export] Hint Resolve low_bits_range low_bits_small : omo.
#[export] Hint Rewrite @st_bind_ok @st_bind_err using assumption : omo_rw.

(** ** Tactics *)

(** Turn the range tests of the code into arithmetic facts. *)
Ltac range_facts :=
  repeat match goal with
  | H : in_u64 _ = true |- _ => apply in_u64_spec in H
  | H : in_u64 _ = false |- _ => apply in_u64_false in H
  | H : in_i64 _ = true |- _ => apply in_i64_spec in H
  | |- in_u64 _ = true => apply in_u64_spec
  | |- in_i64 _ = true => apply in_i64_spec
  end.

(** Run a monadic computation whose first steps are known by hypotheses. *)
Ltac st_step :=
  repeat match goal with
  | H : ?m ?s = (_, Ok _) |- context [st_bind ?m _ ?s] =>
      rewrite (st_bind_ok _ _ _ _ _ H)
  | H : ?m ?s = (_, Err _) |- context [st_bind ?m _ ?s] =>
      rewrite (st_bind_err _ _ _ _ _ H)
  end.
