(* ===== verification/CheckedArith.v ===== *)
(** * [u64::checked_add_signed] as Rust's core library computes it

    [StackRegister::incr_sp] (registers.rs, line 20) adds the signed delta
    with [cur.checked_add_signed(delta)].  Rust's [core::num] defines it,
    for every unsigned width, through [overflowing_add_signed], which casts
    the delta to the unsigned type, adds with carry, and flips the carry
    when the delta is negative.  The definitions below follow that code at
    an arbitrary width [w]; [checked_add_signed] is the [u64] instance.
    The main theorem says that this bit-level routine is the mathematical
    "[Some (a + d)] when the sum fits in [w] bits, [None] otherwise". *)

From S2P Require Import Prelude.

Section WithWidth.
Variable w : Z.

(** [rhs as Self]: the two's-complement reinterpretation of a signed
    [w]-bit integer as an unsigned one. *)
Definition as_unsigned (d : Z) : Z := d mod 2 ^ w.

(** [intrinsics::add_with_overflow] on unsigned operands: the wrapped sum
    and the carry out of bit [w - 1]. *)
Definition add_with_overflow (a b : Z) : Z * bool :=
  ((a + b) mod 2 ^ w, 2 ^ w <=? a + b).

(** [uN::overflowing_add] *)
Definition overflowing_add (a b : Z) : Z * bool := add_with_overflow a b.

(** [uN::overflowing_add_signed]:
    [let (res, overflowed) = self.overflowing_add(rhs as Self);
     (res, overflowed ^ (rhs < 0))] *)
Definition overflowing_add_signed (a d : Z) : Z * bool :=
  let '(res, overflowed) := overflowing_add a (as_unsigned d) in
  (res, xorb overflowed (d <? 0)).

(** [uN::checked_add_signed]:
    [let (a, b) = self.overflowing_add_signed(rhs); if b {None} else {Some(a)}] *)
Definition checked_add_signed_w (a d : Z) : option Z :=
  let '(r, b) := overflowing_add_signed a d in
  if b then None else Some r.

(** The reference: the exact sum when it is a [w]-bit unsigned integer. *)
Definition add_signed_spec (a d : Z) : option Z :=
  if (0 <=? a + d) && (a + d <? 2 ^ w) then Some (a + d) else None.
End WithWidth.

(** The [u64] instance used by [incr_sp]. *)
Definition checked_add_signed (a d : Z) : option Z := checked_add_signed_w 64 a d.

(** ** Arithmetic facts on wrapping *)

Section Wrap.
Variable w : Z.
Hypothesis Hw : 0 < w.

Lemma pow_w_pos : 0 < 2 ^ w.
Proof. apply Z.pow_pos_nonneg; lia. Qed.

Lemma pow_w_half : 2 ^ w = 2 * 2 ^ (w - 1).
Proof.
  rewrite <- Z.pow_succ_r by lia. f_equal. lia.
Qed.

Lemma mod_no_wrap (x : Z) : 0 <= x < 2 ^ w -> x mod 2 ^ w = x.
Proof. apply Z.mod_small. Qed.

Lemma mod_wrap_once (x : Z) : 2 ^ w <= x < 2 * 2 ^ w -> x mod 2 ^ w = x - 2 ^ w.
Proof.
  intros H. pose proof pow_w_pos.
  symmetry. apply (Z.mod_unique x (2 ^ w) 1); lia.
Qed.

Lemma as_unsigned_nonneg (d : Z) : 0 <= d < 2 ^ w -> as_unsigned w d = d.
Proof. apply mod_no_wrap. Qed.

Lemma as_unsigned_neg (d : Z) : - 2 ^ w <= d < 0 -> as_unsigned w d = d + 2 ^ w.
Proof.
  intros H. pose proof pow_w_pos. unfold as_unsigned.
  symmetry. apply (Z.mod_unique d (2 ^ w) (-1)); lia.
Qed.
End Wrap.

(** Decide the range test of [add_signed_spec] by arithmetic. *)
Ltac spec_cases :=
  unfold add_signed_spec;
  match goal with
  | |- context [(0 <=? ?s) && (?s <? ?m)] =>
      destruct (Z.leb_spec 0 s); destruct (Z.ltb_spec s m)
  end; simpl; try lia; try reflexivity.

(** ** Equivalence with the reference *)

(** The bit-level routine of Rust's core library computes the exact sum
    when it fits and reports overflow otherwise, at every width [w > 0] and
    for every [w]-bit unsigned [a] and signed [d]. *)
Lemma checked_add_signed_w_spec (w a d : Z) :
  0 < w -> 0 <= a < 2 ^ w -> - 2 ^ (w - 1) <= d < 2 ^ (w - 1) ->
  checked_add_signed_w w a d = add_signed_spec w a d.
Proof.
  intros Hw Ha Hd. pose proof (pow_w_half w Hw).
  unfold checked_add_signed_w, overflowing_add_signed, overflowing_add,
    add_with_overflow.
  destruct (Z.ltb_spec d 0) as [Hneg | Hpos].
  - rewrite as_unsigned_neg by lia.
    destruct (Z.leb_spec (2 ^ w) (a + (d + 2 ^ w))); simpl.
    + rewrite (mod_wrap_once w Hw) by lia. spec_cases. f_equal. lia.
    + spec_cases.
  - rewrite as_unsigned_nonneg by lia.
    destruct (Z.leb_spec (2 ^ w) (a + d)); simpl.
    + spec_cases.
    + rewrite (mod_no_wrap w) by lia. spec_cases.
Qed.

(** ** The [u64] instance *)

Lemma checked_add_signed_eq_spec (a d : Z) :
  0 <= a < 2 ^ 64 -> - 2 ^ 63 <= d < 2 ^ 63 ->
  checked_add_signed a d = add_signed_spec 64 a d.
Proof. intros Ha Hd. apply checked_add_signed_w_spec; simpl; lia. Qed.

(** [u64::checked_add_signed] is the exact sum when it fits in [u64]. *)
Theorem checked_add_signed_correct (a d : Z) :
  0 <= a < 2 ^ 64 -> - 2 ^ 63 <= d < 2 ^ 63 ->
  checked_add_signed a d = if in_u64 (a + d) then Some (a + d) else None.
Proof.
  intros Ha Hd. rewrite checked_add_signed_eq_spec by assumption. reflexivity.
Qed.

Lemma checked_add_signed_Some (a d r : Z) :
  0 <= a < 2 ^ 64 -> - 2 ^ 63 <= d < 2 ^ 63 ->
  checked_add_signed a d = Some r <-> 0 <= a + d < 2 ^ 64 /\ r = a + d.
Proof.
  intros Ha Hd. rewrite checked_add_signed_eq_spec by assumption.
  unfold add_signed_spec. fold (in_u64 (a + d)).
  destruct (in_u64 (a + d)) eqn:E; range_facts; split.
  - intros H. injection H as <-. lia.
  - intros [_ ->]. reflexivity.
  - discriminate.
  - lia.
Qed.

Lemma checked_add_signed_None (a d : Z) :
  0 <= a < 2 ^ 64 -> - 2 ^ 63 <= d < 2 ^ 63 ->
  checked_add_signed a d = None <-> a + d < 0 \/ 2 ^ 64 <= a + d.
Proof.
  intros Ha Hd. rewrite checked_add_signed_eq_spec by assumption.
  unfold add_signed_spec. fold (in_u64 (a + d)).
  destruct (in_u64 (a + d)) eqn:E; range_facts; split; intros H;
    try discriminate; try reflexivity; lia.
Qed.

(** Whatever [checked_add_signed] returns is a [u64]. *)
Lemma checked_add_signed_range (a d r : Z) :
  0 <= a < 2 ^ 64 -> - 2 ^ 63 <= d < 2 ^ 63 ->
  checked_add_signed a d = Some r -> 0 <= r < 2 ^ 64.
Proof.
  intros Ha Hd H. apply checked_add_signed_Some in H; lia.
Qed.

#[export] Hint Resolve checked_add_signed_range : omo.
