(* ===== verification/Engine.v ===== *)
(** * The emulation engine the register layer calls

    registers.rs calls two methods of [unicorn_engine::Unicorn]:
    [reg_read(regid)] and [reg_write(regid, value)], both generic over
    [T: Into<i32>], which convert the id and call Unicorn's C functions
    [uc_reg_read]/[uc_reg_write] on a [u64] buffer.  The engine is a library
    and not code of this repository, so this file states what the register
    layer relies on as an interface:
    - [Engine]: the register width and the two C entry points, on [i32]
      ids; [reg_read]/[reg_write] are the Rust wrappers that convert the id;
    - [EngineLaws]: the contract of spec section 6 (a well-formedness
      invariant [reg_wf] that writes preserve, read after write gives
      the value narrowed to the register width, a write leaves the other
      registers alone, a failed write changes nothing, a write
      succeeds or fails exactly as a read of the same register, with the
      same error, a read is a zero-extended [w]-bit value);
    - [Uc]: a concrete engine, a register file as a [gmap] from ids to
      values over an architecture [Arch] (its width and its valid ids), in
      which an unknown id fails with [uc_error::ARG] and an unwritten
      register reads 0; it satisfies [EngineLaws]. *)

From stdpp Require Import gmap.
From S2P Require Import Prelude.

(** [unicorn_engine::unicorn_const::uc_error], with its discriminants in order. *)
Inductive uc_error : Type :=
| OK | NOMEM | ARCH | HANDLE | MODE | VERSION | READ_UNMAPPED | WRITE_UNMAPPED
| FETCH_UNMAPPED | HOOK | INSN_INVALID | MAP | WRITE_PROT | READ_PROT
| FETCH_PROT | ARG | READ_UNALIGNED | WRITE_UNALIGNED | FETCH_UNALIGNED
| HOOK_EXIST | RESOURCE | EXCEPTION.

#[export] Instance uc_error_eq_dec : EqDecision uc_error.
Proof. solve_decision. Defined.

(** ** The interface *)

Class Engine (U : Type) := {
  reg_width : Z;
  reg_wf : U -> bool;
  uc_reg_read : U -> Z -> Result Z uc_error;
  uc_reg_write : Z -> Z -> StM U uc_error unit;
}.

Section Wrappers.
Context {U : Type} `{Engine U}.

(** [Unicorn::reg_read<T: Into<i32>>(&self, regid: T) -> Result<u64, uc_error>] *)
Definition reg_read {R : Type} `{IntoI32 R} (u : U) (regid : R) : Result Z uc_error :=
  uc_reg_read u (into regid).

(** [Unicorn::reg_write<T: Into<i32>>(&mut self, regid: T, value: u64)] *)
Definition reg_write {R : Type} `{IntoI32 R} (regid : R) (value : Z)
  : StM U uc_error unit :=
  uc_reg_write (into regid) value.
End Wrappers.

Class EngineLaws (U : Type) `{Engine U} : Prop := {
  reg_width_cases : reg_width = 32 \/ reg_width = 64;
  uc_read_range : forall u r v,
    reg_wf u = true -> uc_reg_read u r = Ok v -> 0 <= v < 2 ^ reg_width;
  uc_write_wf : forall u u' r v res,
    reg_wf u = true -> uc_reg_write r v u = (u', res) -> reg_wf u' = true;
  uc_write_read_same : forall u u' r v,
    uc_reg_write r v u = (u', Ok tt) ->
    uc_reg_read u' r = Ok (low_bits reg_width v);
  uc_write_read_other : forall u u' r r' v,
    uc_reg_write r v u = (u', Ok tt) -> r' <> r -> uc_reg_read u' r' = uc_reg_read u r';
  uc_write_err_atomic : forall u u' r v e,
    uc_reg_write r v u = (u', Err e) -> u' = u;
  uc_write_result : forall u r v,
    snd (uc_reg_write r v u) =
      match uc_reg_read u r with Ok _ => Ok tt | Err e => Err e end;
}.

(** ** A concrete engine: a register file *)

Record Arch : Type := {
  arch_width : Z;
  arch_valid : Z -> bool;
  arch_width_ok : arch_width = 32 \/ arch_width = 64;
}.

Record Uc (a : Arch) : Type := mkUc { uc_regs : gmap Z Z }.
Arguments mkUc {a} uc_regs.
Arguments uc_regs {a} _.

Definition uc_read {a : Arch} (u : Uc a) (r : Z) : Result Z uc_error :=
  if arch_valid a r then Ok (default 0 (uc_regs u !! r)) else Err ARG.

Definition uc_write {a : Arch} (r v : Z) : StM (Uc a) uc_error unit :=
  fun u =>
    if arch_valid a r
    then (mkUc (<[r := low_bits (arch_width a) v]> (uc_regs u)), Ok tt)
    else (u, Err ARG).

(** Every stored value is a [w]-bit unsigned integer. *)
Definition uc_wf {a : Arch} (u : Uc a) : bool :=
  bool_decide (map_Forall (fun _ v => 0 <= v < 2 ^ arch_width a) (uc_regs u)).

#[export] Instance Uc_engine (a : Arch) : Engine (Uc a) := {
  reg_width := arch_width a;
  reg_wf := uc_wf;
  uc_reg_read := uc_read;
  uc_reg_write := uc_write;
}.

(** ** [Uc] satisfies the engine laws *)

Section UcLaws.
Context (a : Arch).

Lemma pow_arch_pos : 0 < 2 ^ arch_width a.
Proof. destruct (arch_width_ok a) as [-> | ->]; reflexivity. Qed.

Lemma uc_write_valid (u : Uc a) (r v : Z) :
  arch_valid a r = true ->
  uc_write r v u = (mkUc (<[r := low_bits (arch_width a) v]> (uc_regs u)), Ok tt).
Proof. intros Hr. unfold uc_write. rewrite Hr. reflexivity. Qed.

Lemma uc_write_invalid (u : Uc a) (r v : Z) :
  arch_valid a r = false -> uc_write r v u = (u, Err ARG).
Proof. intros Hr. unfold uc_write. rewrite Hr. reflexivity. Qed.

Lemma uc_read_valid (u : Uc a) (r : Z) :
  arch_valid a r = true -> uc_read u r = Ok (default 0 (uc_regs u !! r)).
Proof. intros Hr. unfold uc_read. rewrite Hr. reflexivity. Qed.

Lemma uc_read_invalid (u : Uc a) (r : Z) :
  arch_valid a r = false -> uc_read u r = Err ARG.
Proof. intros Hr. unfold uc_read. rewrite Hr. reflexivity. Qed.
End UcLaws.

(** Split on the validity of the register id and compute. *)
Ltac uc_valid_cases a r :=
  let Hr := fresh "Hr" in
  destruct (arch_valid a r) eqn:Hr;
  [ rewrite ?uc_write_valid, ?uc_read_valid by exact Hr
  | rewrite ?uc_write_invalid, ?uc_read_invalid by exact Hr ].

#[export] Instance Uc_laws (a : Arch) : EngineLaws (Uc a).
Proof.
  pose proof (pow_arch_pos a). pose proof (low_bits_range (arch_width a)).
  assert (0 <= arch_width a) by (destruct (arch_width_ok a); lia).
  split; simpl.
  - apply arch_width_ok.
  - intros u r v Hwf Hread. unfold uc_wf in Hwf. apply bool_decide_eq_true in Hwf.
    revert Hread. uc_valid_cases a r; [| discriminate].
    intros Hread. injection Hread as <-.
    destruct (uc_regs u !! r) as [x |] eqn:Hx; simpl; [| lia].
    exact (Hwf r x Hx).
  - intros u u' r v res Hwf. unfold uc_wf in *. apply bool_decide_eq_true in Hwf.
    uc_valid_cases a r; intros Hw; injection Hw as <- _;
      apply bool_decide_eq_true; [| exact Hwf].
    apply map_Forall_insert_2; [apply low_bits_range |]; assumption.
  - intros u u' r v. uc_valid_cases a r; [| discriminate].
    intros Hw. injection Hw as <-. simpl.
    rewrite lookup_insert_eq. reflexivity.
  - intros u u' r r' v. uc_valid_cases a r; [| discriminate].
    intros Hw Hne. injection Hw as <-. unfold uc_read. simpl.
    rewrite lookup_insert_ne by congruence. reflexivity.
  - intros u u' r v e. uc_valid_cases a r; [discriminate |].
    intros Hw. injection Hw as <-. reflexivity.
  - intros u r v. uc_valid_cases a r; reflexivity.
Qed.
