(* ===== verification/RegisterInfo.v ===== *)
(** * [RegisterInfo] and the runner's user data

    [RegisterInfo] (registers.rs, lines 56-59) names the engine ids of the
    program counter and the stack pointer; [RegisterInfo::new] (lines 61-67)
    converts two ids of any [Into<i32>] type.  The record lives in the
    runner's user data [crate::data::Data] (not among the sources; only its
    field [register_info] is used by registers.rs), modelled here as a
    record with that one field. *)

From S2P Require Import Prelude.

Module RegisterInfo.

(** [pub struct RegisterInfo { pc: i32, sp: i32 }] *)
Record RegisterInfo : Type := mkRegisterInfo { pc : Z; sp : Z }.

(** [RegisterInfo::new(pc_reg: impl Into<i32>, sp_reg: impl Into<i32>)] *)
Definition new {A B : Type} `{IntoI32 A} `{IntoI32 B} (pc_reg : A) (sp_reg : B)
  : RegisterInfo :=
  {| pc := into pc_reg; sp := into sp_reg |}.

End RegisterInfo.

(** [crate::data::Data], through the field registers.rs reads. *)
Record Data : Type := mkData { register_info : RegisterInfo.RegisterInfo }.
