(* ===== verification/Registers.v ===== *)
(** * The [Registers] trait and its implementation for [Unicorn<'a, Data>]

    The trait (registers.rs, lines 5-10) is the class [Registers]; a
    [&self] method returns a [Result], a [&mut self] method is an [StM].
    [Unicorn<'a, Data>] is the record [Unicorn]: the engine state and the
    user data returned by [get_data].  The implementation (lines 38-54) is
    proved against the engine interface [EngineLaws], so it holds for
    every engine that satisfies the laws, the register file [Uc] included. *)

From S2P Require Import Prelude Engine RegisterInfo.

Class Registers (C : Type) := {
  read : forall {R : Type} `{IntoI32 R}, C -> R -> Result Z uc_error;
  write : forall {R : Type} `{IntoI32 R}, R -> Z -> StM C uc_error unit;
  pc : C -> Result Z uc_error;
  set_pc : Z -> StM C uc_error unit;
}.

(** [Unicorn<'a, D>]: the engine and the user data attached to it. *)
Record Unicorn (U D : Type) : Type := mkUnicorn { inner : U; data : D }.
Arguments mkUnicorn {U D} inner data.
Arguments inner {U D} _.
Arguments data {U D} _.

(** [Unicorn::get_data(&self) -> &D] *)
Definition get_data {U D : Type} (u : Unicorn U D) : D := data u.

(** A call of the engine from a [&mut self] method of [Unicorn]: the engine
    state changes, the user data does not. *)
Definition on_inner {U D E A : Type} (m : StM U E A) : StM (Unicorn U D) E A :=
  fun u => let '(i', r) := m (inner u) in (mkUnicorn i' (data u), r).

Section UnicornRegisters.
Context {U : Type} `{Engine U}.

(** [fn read(&self, reg: impl Into<i32>) { self.reg_read(reg) }] *)
Definition unicorn_read {R : Type} `{IntoI32 R} (u : Unicorn U Data) (reg : R)
  : Result Z uc_error :=
  reg_read (inner u) reg.

(** [fn write(&mut self, reg: impl Into<i32>, value: u64) { self.reg_write(reg, value) }] *)
Definition unicorn_write {R : Type} `{IntoI32 R} (reg : R) (value : Z)
  : StM (Unicorn U Data) uc_error unit :=
  on_inner (reg_write reg value).

(** [fn pc(&self)]: [let pc_reg = self.get_data().register_info.pc; self.read(pc_reg)] *)
Definition unicorn_pc (u : Unicorn U Data) : Result Z uc_error :=
  let pc_reg := RegisterInfo.pc (register_info (get_data u)) in
  unicorn_read u pc_reg.

(** [fn set_pc(&mut self, value: u64)]:
    [let pc_reg = self.get_data().register_info.pc; self.write(pc_reg, value)] *)
Definition unicorn_set_pc (value : Z) : StM (Unicorn U Data) uc_error unit :=
  fun u =>
    let pc_reg := RegisterInfo.pc (register_info (get_data u)) in
    unicorn_write pc_reg value u.

(** The invariant of the context: the engine state is well formed and the
    user data is the one it started with. *)
Definition unicorn_inv (d : Data) (u : Unicorn U Data) : Prop :=
  reg_wf (inner u) = true /\ data u = d.

#[export] Instance Unicorn_Registers : Registers (Unicorn U Data) := {
  read := @unicorn_read;
  write := @unicorn_write;
  pc := unicorn_pc;
  set_pc := unicorn_set_pc;
}.
End UnicornRegisters.

(** ** Properties, for every engine that satisfies [EngineLaws] *)

Section RegistersProofs.
Context {U : Type} `{EngineLaws U}.

(** A write of [Unicorn] is the engine's write on the engine state. *)
Lemma unicorn_write_inv {R : Type} `{IntoI32 R} (reg : R) (v : Z)
    (u u' : Unicorn U Data) res :
  unicorn_write reg v u = (u', res) ->
  exists i', uc_reg_write (into reg) v (inner u) = (i', res) /\
             u' = mkUnicorn i' (data u).
Proof.
  unfold unicorn_write, on_inner, reg_write.
  destruct (uc_reg_write (into reg) v (inner u)) as [i' r] eqn:E.
  intros Heq. injection Heq as <- <-. eauto.
Qed.

Lemma reg_width_nonneg : 0 <= reg_width.
Proof. destruct reg_width_cases as [-> | ->]; lia. Qed.

Lemma pow_reg_width_le : 2 ^ reg_width <= 2 ^ 64.
Proof. destruct reg_width_cases as [-> | ->]; lia. Qed.

(** Read after write: a read of the register just written returns the
    value narrowed to the register width. *)
Theorem write_read_same {R : Type} `{IntoI32 R} (reg : R) (v : Z)
    (u u' : Unicorn U Data) :
  unicorn_write reg v u = (u', Ok tt) ->
  unicorn_read u' reg = Ok (low_bits reg_width v).
Proof.
  intros (i' & Hw & ->)%unicorn_write_inv.
  exact (uc_write_read_same _ _ _ _ Hw).
Qed.

(** A write leaves every other register as it was. *)
Lemma write_read_other {R R' : Type} `{IntoI32 R} `{IntoI32 R'}
    (reg : R) (reg' : R') (v : Z) (u u' : Unicorn U Data) :
  unicorn_write reg v u = (u', Ok tt) -> into reg' <> into reg ->
  unicorn_read u' reg' = unicorn_read u reg'.
Proof.
  intros (i' & Hw & ->)%unicorn_write_inv Hne.
  exact (uc_write_read_other _ _ _ _ _ Hw Hne).
Qed.

(** A register that can be read can be written. *)
Lemma write_succeeds {R : Type} `{IntoI32 R} (reg : R) (v x : Z)
    (u : Unicorn U Data) :
  unicorn_read u reg = Ok x -> exists u', unicorn_write reg v u = (u', Ok tt).
Proof.
  intros Hr. pose proof (uc_write_result (inner u) (into reg) v) as Hres.
  unfold unicorn_read, reg_read in Hr. rewrite Hr in Hres.
  destruct (uc_reg_write (into reg) v (inner u)) as [i' res] eqn:E.
  simpl in Hres. subst res. exists (mkUnicorn i' (data u)).
  unfold unicorn_write, on_inner, reg_write. rewrite E. reflexivity.
Qed.

Lemma write_preserves_inv {R : Type} `{IntoI32 R} (reg : R) (v : Z)
    (u u' : Unicorn U Data) d res :
  unicorn_inv d u -> unicorn_write reg v u = (u', res) -> unicorn_inv d u'.
Proof.
  intros [Hwf Hd] (i' & Hw & ->)%unicorn_write_inv.
  split; [exact (uc_write_wf _ _ _ _ _ Hwf Hw) | exact Hd].
Qed.

Lemma unicorn_write_data {R : Type} `{IntoI32 R} (reg : R) (v : Z)
    (u u' : Unicorn U Data) res :
  unicorn_write reg v u = (u', res) -> data u' = data u.
Proof. intros (i' & _ & ->)%unicorn_write_inv. reflexivity. Qed.

(** A failed write changes nothing and returns the error a read of the
    same register returns. *)
Lemma write_err_spec {R : Type} `{IntoI32 R} (reg : R) (v : Z)
    (u u' : Unicorn U Data) e :
  unicorn_write reg v u = (u', Err e) -> u' = u /\ unicorn_read u reg = Err e.
Proof.
  intros (i' & Hi & ->)%unicorn_write_inv.
  pose proof (uc_write_result (inner u) (into reg) v) as Hres. rewrite Hi in Hres.
  rewrite (uc_write_err_atomic _ _ _ _ _ Hi). split; [destruct u; reflexivity |].
  unfold unicorn_read, reg_read. simpl in Hres.
  destruct (uc_reg_read (inner u) (into reg)); congruence.
Qed.

(** A register named through [register_info] (the PC or the SP) after a
    write of any raw register id: the written value when the id is the
    configured one, what it read before otherwise. *)
Lemma named_after_raw_write (sel : RegisterInfo.RegisterInfo -> Z)
    (r v : Z) (u u' : Unicorn U Data) :
  unicorn_write r v u = (u', Ok tt) ->
  unicorn_read u' (sel (register_info (get_data u'))) =
    if decide (r = sel (register_info (data u)))
    then Ok (low_bits reg_width v)
    else unicorn_read u (sel (register_info (data u))).
Proof.
  intros Hw. unfold get_data. rewrite (unicorn_write_data _ _ _ _ _ Hw).
  case_decide as Hsel.
  - subst r. destruct (unicorn_write_inv _ _ _ _ _ Hw) as (i' & Hi & ->).
    exact (uc_write_read_same _ _ _ _ Hi).
  - exact (write_read_other _ _ _ _ _ Hw (not_eq_sym Hsel)).
Qed.

(** [pc] is a redirection through [register_info.pc]: after a write of
    any raw register id, [pc] reads the written value when the id is the
    configured PC id, and what it read before otherwise. *)
Theorem pc_after_raw_write (r v : Z) (u u' : Unicorn U Data) :
  unicorn_write r v u = (u', Ok tt) ->
  unicorn_pc u' =
    if decide (r = RegisterInfo.pc (register_info (data u)))
    then Ok (low_bits reg_width v) else unicorn_pc u.
Proof. apply named_after_raw_write. Qed.

(** [set_pc] then [pc] returns the value, narrowed to the register width. *)
Theorem set_pc_pc (v : Z) (u u' : Unicorn U Data) :
  unicorn_set_pc v u = (u', Ok tt) -> unicorn_pc u' = Ok (low_bits reg_width v).
Proof.
  intros Hw. unfold unicorn_pc. rewrite (named_after_raw_write _ _ _ _ _ Hw).
  rewrite decide_True; reflexivity.
Qed.

(** [set_pc] leaves every register other than the PC unchanged. *)
Lemma set_pc_frame {R : Type} `{IntoI32 R} (reg : R) (v : Z) (u u' : Unicorn U Data) :
  unicorn_set_pc v u = (u', Ok tt) ->
  into reg <> RegisterInfo.pc (register_info (data u)) ->
  unicorn_read u' reg = unicorn_read u reg.
Proof. intros Hw Hne. exact (write_read_other _ _ _ _ _ Hw Hne). Qed.
(** A failed [set_pc] leaves the context unchanged and fails with the
    error [pc] returns: the PC id is not a register of the engine. *)
Theorem set_pc_err (v : Z) (u u' : Unicorn U Data) e :
  unicorn_set_pc v u = (u', Err e) -> u' = u /\ unicorn_pc u = Err e.
Proof. intros Hw. exact (write_err_spec _ _ _ _ _ Hw). Qed.
End RegistersProofs.

#[export] Hint Resolve write_preserves_inv : omo.
