(* ===== verification/StackRegister.v ===== *)
(** * The [StackRegister] trait, its provided method [incr_sp], and its
      implementation for [Unicorn<'a, Data>]

    The trait (registers.rs, lines 11-25) is the class [StackRegister]; its
    provided method [incr_sp] (lines 17-24) is defined once in the Section
    [IncrSp] for every implementation, as the trait provides it, with the
    three [?] of the code as the three binds of [StM].  [incr_sp_spec] is
    the abstract contract of spec section 4.2 (read SP; fail with
    [EXCEPTION] and no change if [sp + delta] leaves the [u64] range;
    otherwise write and return it), and [incr_sp_refines] shows that the
    code implements it.  The implementation for [Unicorn] (lines 26-36)
    resolves the SP id through [register_info.sp] and calls the [Registers]
    methods; the theorems at the end are the testable properties of spec
    section 8 for it, and what happens on a 32-bit engine. *)

From S2P Require Import Prelude CheckedArith Engine RegisterInfo Registers.

Class StackRegister (C : Type) := {
  sp : C -> Result Z uc_error;
  set_sp : Z -> StM C uc_error unit;
}.

Section IncrSp.
Context {C : Type} `{StackRegister C}.
Local Open Scope omo_scope.

(** [fn incr_sp(&mut self, delta: i64) -> Result<u64, uc_error>]:
    [let cur = self.sp()?;
     let new_sp = cur.checked_add_signed(delta).ok_or(uc_error::EXCEPTION)?;
     self.set_sp(new_sp)?;
     Ok(new_sp)] *)
Definition incr_sp (delta : Z) : StM C uc_error Z :=
  do cur <- st_ref sp ;
  do new_sp <- st_lift (ok_or (checked_add_signed cur delta) EXCEPTION) ;
  do _ <- set_sp new_sp ;
  st_ret new_sp.

(** The contract of spec section 4.2, on mathematical integers. *)
Definition incr_sp_spec (delta : Z) : StM C uc_error Z :=
  fun c =>
    match sp c with
    | Err e => (c, Err e)
    | Ok s =>
        if in_u64 (s + delta) then
          match set_sp (s + delta) c with
          | (c', Ok _) => (c', Ok (s + delta))
          | (c', Err e) => (c', Err e)
          end
        else (c, Err EXCEPTION)
    end.
End IncrSp.

Section UnicornStack.
Context {U : Type} `{Engine U}.

(** [fn sp(&self)]: [let sp_reg = self.get_data().register_info.sp; self.read(sp_reg)] *)
Definition unicorn_sp (u : Unicorn U Data) : Result Z uc_error :=
  let sp_reg := RegisterInfo.sp (register_info (get_data u)) in
  unicorn_read u sp_reg.

(** [fn set_sp(&mut self, value: u64)]:
    [let sp_reg = self.get_data().register_info.sp; self.write(sp_reg, value)] *)
Definition unicorn_set_sp (value : Z) : StM (Unicorn U Data) uc_error unit :=
  fun u =>
    let sp_reg := RegisterInfo.sp (register_info (get_data u)) in
    unicorn_write sp_reg value u.

(** [incr_sp] is not overridden: the implementation uses the provided one. *)
#[export] Instance Unicorn_StackRegister : StackRegister (Unicorn U Data) := {
  sp := unicorn_sp;
  set_sp := unicorn_set_sp;
}.
End UnicornStack.

(** ** [incr_sp] for every implementation of [StackRegister] *)

Section IncrSpProofs.
Context {C : Type} `{StackRegister C}.

(** [incr_sp] with its binds run: the three early returns of the code. *)
Lemma incr_sp_unfold (d : Z) (c : C) :
  incr_sp d c =
    match sp c with
    | Err e => (c, Err e)
    | Ok s =>
        match checked_add_signed s d with
        | None => (c, Err EXCEPTION)
        | Some n =>
            match set_sp n c with
            | (c', Ok _) => (c', Ok n)
            | (c', Err e) => (c', Err e)
            end
        end
    end.
Proof.
  unfold incr_sp. simpl. destruct (sp c) as [s | e]; simpl; [| reflexivity].
  destruct (checked_add_signed s d) as [n |]; simpl; [| reflexivity].
  destruct (set_sp n c) as [c' [[] | e]]; reflexivity.
Qed.

(** Refinement: on a [u64] stack pointer and an [i64] delta, the code of
    [incr_sp] computes exactly the contract [incr_sp_spec]. *)
Theorem incr_sp_refines (d : Z) (c : C) :
  - 2 ^ 63 <= d < 2 ^ 63 ->
  (forall s, sp c = Ok s -> 0 <= s < 2 ^ 64) ->
  incr_sp d c = incr_sp_spec d c.
Proof.
  intros Hd Hs. rewrite incr_sp_unfold. unfold incr_sp_spec.
  destruct (sp c) as [s | e]; [| reflexivity].
  rewrite checked_add_signed_eq_spec by auto. unfold add_signed_spec.
  fold (in_u64 (s + d)). destruct (in_u64 (s + d)); reflexivity.
Qed.

Section Branch.
Variables (d s : Z) (c : C).
Hypothesis Hd : - 2 ^ 63 <= d < 2 ^ 63.
Hypothesis Hsp : sp c = Ok s.
Hypothesis Hs : 0 <= s < 2 ^ 64.

(** Overflow: [EXCEPTION], and the state is the one before the call. *)
Lemma incr_sp_overflow :
  s + d < 0 \/ 2 ^ 64 <= s + d -> incr_sp d c = (c, Err EXCEPTION).
Proof.
  intros Hov. rewrite incr_sp_unfold, Hsp.
  rewrite (proj2 (checked_add_signed_None s d Hs Hd) Hov). reflexivity.
Qed.

(** No overflow: the result of [set_sp (s + d)] decides the outcome. *)
Lemma incr_sp_write :
  0 <= s + d < 2 ^ 64 ->
  incr_sp d c =
    match set_sp (s + d) c with
    | (c', Ok _) => (c', Ok (s + d))
    | (c', Err e) => (c', Err e)
    end.
Proof.
  intros Hin. rewrite incr_sp_unfold, Hsp.
  rewrite (proj2 (checked_add_signed_Some s d (s + d) Hs Hd) (conj Hin eq_refl)).
  reflexivity.
Qed.
End Branch.

(** A failed write of the new SP is returned as it is, with the state the
    write left. *)
Lemma incr_sp_write_err (d s : Z) (c c' : C) e :
  - 2 ^ 63 <= d < 2 ^ 63 -> sp c = Ok s -> 0 <= s < 2 ^ 64 ->
  0 <= s + d < 2 ^ 64 -> set_sp (s + d) c = (c', Err e) ->
  incr_sp d c = (c', Err e).
Proof.
  intros Hd Hsp Hs Hin Hw. rewrite (incr_sp_write d s c Hd Hsp Hs Hin), Hw.
  reflexivity.
Qed.

(** A failed read of SP is returned as it is, with no change. *)
Lemma incr_sp_read_err (d : Z) (c : C) e :
  sp c = Err e -> incr_sp d c = (c, Err e).
Proof. intros Hsp. rewrite incr_sp_unfold, Hsp. reflexivity. Qed.

(** The laws an implementation of [sp]/[set_sp] gives [incr_sp]: a write
    of SP reads back narrowed to [w] bits, and an SP that reads can be
    written. *)
Section WithLaws.
Variable w : Z.
Hypothesis set_sp_sp :
  forall c c' v, set_sp v c = (c', Ok tt) -> sp c' = Ok (low_bits w v).
Hypothesis sp_ok_set_sp_ok :
  forall c s v, sp c = Ok s -> exists c', set_sp v c = (c', Ok tt).

(** After a successful [incr_sp], [sp] reads the returned value,
    narrowed to [w] bits. *)
Lemma incr_sp_then_sp (d n : Z) (c c' : C) :
  incr_sp d c = (c', Ok n) -> sp c' = Ok (low_bits w n).
Proof.
  rewrite incr_sp_unfold.
  destruct (sp c) as [s | e]; [| discriminate].
  destruct (checked_add_signed s d) as [m |]; [| discriminate].
  destruct (set_sp m c) as [c'' [[] | e]] eqn:Hw; [| discriminate].
  intros [= <- <-]. exact (set_sp_sp _ _ _ Hw).
Qed.

(** When the sum fits, [incr_sp] returns it (it does not fail). *)
Lemma incr_sp_succeeds (d s : Z) (c : C) :
  - 2 ^ 63 <= d < 2 ^ 63 -> sp c = Ok s -> 0 <= s < 2 ^ 64 ->
  0 <= s + d < 2 ^ 64 ->
  exists c', incr_sp d c = (c', Ok (s + d)) /\ sp c' = Ok (low_bits w (s + d)).
Proof.
  intros Hd Hsp Hs Hin.
  destruct (sp_ok_set_sp_ok c s (s + d) Hsp) as [c' Hw].
  exists c'. rewrite (incr_sp_write d s c Hd Hsp Hs Hin), Hw.
  split; [reflexivity | exact (set_sp_sp _ _ _ Hw)].
Qed.
End WithLaws.
End IncrSpProofs.

(** ** The implementation for [Unicorn], over any engine with [EngineLaws] *)

Section UnicornStackProofs.
Context {U : Type} `{EngineLaws U}.

(** [sp] is a redirection through [register_info.sp]. *)
Theorem sp_after_raw_write (r v : Z) (u u' : Unicorn U Data) :
  unicorn_write r v u = (u', Ok tt) ->
  unicorn_sp u' =
    if decide (r = RegisterInfo.sp (register_info (data u)))
    then Ok (low_bits reg_width v) else unicorn_sp u.
Proof. apply named_after_raw_write. Qed.

Lemma unicorn_set_sp_sp (u u' : Unicorn U Data) (v : Z) :
  unicorn_set_sp v u = (u', Ok tt) -> unicorn_sp u' = Ok (low_bits reg_width v).
Proof.
  intros Hw. unfold unicorn_sp. rewrite (named_after_raw_write _ _ _ _ _ Hw).
  rewrite decide_True; reflexivity.
Qed.

Lemma unicorn_sp_set_ok (u : Unicorn U Data) (s v : Z) :
  unicorn_sp u = Ok s -> exists u', unicorn_set_sp v u = (u', Ok tt).
Proof.
  intros Hsp. unfold unicorn_set_sp, get_data.
  destruct (unicorn_write (RegisterInfo.sp (register_info (data u))) v u) as [u' r] eqn:Hw.
  exists u'. destruct (unicorn_write_inv _ _ _ _ _ Hw) as (i' & Hi & _).
  pose proof (uc_write_result (inner u) (into (RegisterInfo.sp (register_info (data u)))) v) as Hres.
  rewrite Hi in Hres. unfold unicorn_sp, unicorn_read, reg_read, get_data in Hsp.
  simpl in Hres. rewrite Hsp in Hres. subst r. reflexivity.
Qed.

Lemma unicorn_sp_range (s : Z) (u : Unicorn U Data) :
  reg_wf (inner u) = true -> unicorn_sp u = Ok s -> 0 <= s < 2 ^ 64.
Proof.
  intros Hwf Hsp. pose proof pow_reg_width_le.
  pose proof (uc_read_range (inner u) _ s Hwf Hsp). lia.
Qed.

(** [incr_sp_succeeds] for [Unicorn]: its laws hold at the engine width. *)
Lemma unicorn_incr_sp_fits (d s : Z) (u : Unicorn U Data) :
  reg_wf (inner u) = true ->
  - 2 ^ 63 <= d < 2 ^ 63 -> unicorn_sp u = Ok s -> 0 <= s + d < 2 ^ 64 ->
  exists u', incr_sp d u = (u', Ok (s + d)) /\
             unicorn_sp u' = Ok (low_bits reg_width (s + d)).
Proof.
  intros Hwf Hd Hsp Hin.
  pose proof (incr_sp_succeeds (C := Unicorn U Data) reg_width) as Hfit.
  apply Hfit; [exact unicorn_set_sp_sp | exact unicorn_sp_set_ok | exact Hd
              | exact Hsp | exact (unicorn_sp_range _ _ Hwf Hsp) | exact Hin].
Qed.

(** Spec 8, third property: on a 64-bit engine, when [s + d] is a [u64],
    [incr_sp d] returns [s + d] and [sp] then reads [s + d]. *)
Theorem incr_sp_ok_64 (d s : Z) (u : Unicorn U Data) :
  reg_width = 64 -> reg_wf (inner u) = true ->
  - 2 ^ 63 <= d < 2 ^ 63 -> unicorn_sp u = Ok s -> 0 <= s + d < 2 ^ 64 ->
  exists u', incr_sp d u = (u', Ok (s + d)) /\ unicorn_sp u' = Ok (s + d).
Proof.
  intros Hw64 Hwf Hd Hsp Hin.
  destruct (unicorn_incr_sp_fits d s u Hwf Hd Hsp Hin) as (u' & Hr & Hs').
  exists u'. split; [exact Hr |].
  rewrite Hs', low_bits_small; [reflexivity | |]; rewrite Hw64; lia.
Qed.

(** Spec 8, fourth and fifth properties: when [s + d] leaves the [u64]
    range, [incr_sp d] fails with [EXCEPTION] and the context, its stack
    pointer included, is the one before the call. *)
Theorem incr_sp_overflow_atomic (d s : Z) (u : Unicorn U Data) :
  reg_wf (inner u) = true -> - 2 ^ 63 <= d < 2 ^ 63 -> unicorn_sp u = Ok s ->
  s + d < 0 \/ 2 ^ 64 <= s + d ->
  incr_sp d u = (u, Err EXCEPTION).
Proof.
  intros Hwf Hd Hsp Hov.
  exact (incr_sp_overflow d s u Hd Hsp (unicorn_sp_range _ _ Hwf Hsp) Hov).
Qed.

(** What the code does on a 32-bit engine: [incr_sp] checks overflow on
    64 bits, so when [s + d] fits in [u64] but not in 32 bits it returns
    [Ok (s + d)] while the register keeps only the low 32 bits. *)
Theorem incr_sp_narrowed_32 (d s : Z) (u : Unicorn U Data) :
  reg_width = 32 -> reg_wf (inner u) = true ->
  - 2 ^ 63 <= d < 2 ^ 63 -> unicorn_sp u = Ok s -> 0 <= s + d < 2 ^ 64 ->
  exists u', incr_sp d u = (u', Ok (s + d)) /\
             unicorn_sp u' = Ok ((s + d) mod 2 ^ 32).
Proof.
  intros Hw32 Hwf Hd Hsp Hin.
  destruct (unicorn_incr_sp_fits d s u Hwf Hd Hsp Hin) as (u' & Hr & Hs').
  exists u'. rewrite Hs', low_bits_mod, Hw32 by (rewrite Hw32; lia). auto.
Qed.

(** Whatever its outcome, [incr_sp] ends in the context it started from or
    in the one a call of [set_sp] produced. *)
Lemma incr_sp_state (d : Z) (u u' : Unicorn U Data) res :
  incr_sp d u = (u', res) ->
  u' = u \/ exists n res', unicorn_set_sp n u = (u', res').
Proof.
  rewrite incr_sp_unfold.
  destruct (sp u) as [s | e]; [| intros [= <- _]; now left].
  destruct (checked_add_signed s d) as [n |]; [| intros [= <- _]; now left].
  simpl. destruct (unicorn_set_sp n u) as [u'' r] eqn:Hw.
  intros Heq. right. exists n, r. assert (u'' = u') as <- by (destruct r; congruence).
  exact Hw.
Qed.

(** [incr_sp] changes no register but the stack pointer (the PC among
    them, when its id differs from the SP id). *)
Lemma incr_sp_frame {R : Type} `{IntoI32 R} (reg : R) (d n : Z) (u u' : Unicorn U Data) :
  incr_sp d u = (u', Ok n) ->
  into reg <> RegisterInfo.sp (register_info (data u)) ->
  unicorn_read u' reg = unicorn_read u reg.
Proof.
  rewrite incr_sp_unfold.
  destruct (sp u) as [s | e]; [| discriminate].
  destruct (checked_add_signed s d) as [m |]; [| discriminate].
  simpl. destruct (unicorn_set_sp m u) as [u'' [[] | e]] eqn:Hw; [| discriminate].
  intros [= <- _] Hne. exact (write_read_other _ _ _ _ _ Hw Hne).
Qed.

(** On a 32-bit engine the overflow guard of [incr_sp] never fires for a
    non-negative delta: SP reads below [2^32] and the delta below [2^63],
    so the [u64] sum always fits.  Every pop succeeds, and SP wraps modulo
    [2^32] once it passes the top of the 32-bit address space. *)
Theorem incr_sp_pop_never_fails_32 (d s : Z) (u : Unicorn U Data) :
  reg_width = 32 -> reg_wf (inner u) = true ->
  0 <= d < 2 ^ 63 -> unicorn_sp u = Ok s ->
  exists u', incr_sp d u = (u', Ok (s + d)) /\
             unicorn_sp u' = Ok ((s + d) mod 2 ^ 32).
Proof.
  intros Hw32 Hwf Hd Hsp.
  pose proof (uc_read_range (inner u) _ s Hwf Hsp) as Hr. rewrite Hw32 in Hr.
  destruct (unicorn_incr_sp_fits d s u Hwf ltac:(lia) Hsp ltac:(lia)) as (u' & Hi & Hs').
  exists u'. rewrite Hs', low_bits_mod, Hw32 by (rewrite Hw32; lia). auto.
Qed.

(** A failed [set_sp] leaves the context unchanged and fails with the
    error [sp] returns. *)
Theorem set_sp_err (v : Z) (u u' : Unicorn U Data) e :
  unicorn_set_sp v u = (u', Err e) -> u' = u /\ unicorn_sp u = Err e.
Proof. intros Hw. exact (write_err_spec _ _ _ _ _ Hw). Qed.

(** Every failure of [incr_sp] on a [Unicorn] context is atomic: the
    context is unchanged, and the error is the one reading the SP returned,
    or [EXCEPTION] from a [checked_add_signed] overflow.  The write of the
    new SP never fails once the read succeeded. *)
Theorem incr_sp_err_atomic (d : Z) (u u' : Unicorn U Data) e :
  incr_sp d u = (u', Err e) ->
  u' = u /\
  (unicorn_sp u = Err e \/
   (e = EXCEPTION /\ exists s, unicorn_sp u = Ok s /\ checked_add_signed s d = None)).
Proof.
  rewrite incr_sp_unfold. simpl.
  destruct (unicorn_sp u) as [s | e'] eqn:Hsp; [| intros [= <- <-]; auto].
  destruct (checked_add_signed s d) as [n |] eqn:Hc; [| intros [= <- <-]; eauto 6].
  destruct (unicorn_sp_set_ok u s n Hsp) as (u'' & ->). discriminate.
Qed.

(** [RegisterInfo::new] stores any two ids, and [set_pc] writes the one
    stored as [pc]: after a successful [set_pc v], [sp] reads [v] (narrowed)
    when the two ids given to [RegisterInfo::new] convert to the same
    [i32], and reads what it read before when they differ. *)
Theorem set_pc_sp_aliasing {A B : Type} `{IntoI32 A} `{IntoI32 B} (pc_reg : A) (sp_reg : B)
    (v : Z) (u u' : Unicorn U Data) :
  data u = mkData (RegisterInfo.new pc_reg sp_reg) ->
  unicorn_set_pc v u = (u', Ok tt) ->
  unicorn_sp u' =
    if decide (into pc_reg = into sp_reg) then Ok (low_bits reg_width v) else unicorn_sp u.
Proof.
  intros Hd Hw. unfold unicorn_sp. rewrite (named_after_raw_write RegisterInfo.sp _ _ _ _ Hw).
  unfold get_data. rewrite Hd. reflexivity.
Qed.
End UnicornStackProofs.
