(* ===== verification/Equiv.v ===== *)
(** * Observational equivalence of [Unicorn] contexts

    Two contexts are equivalent when they carry the same user data and
    every register id reads alike through the engine.  A register file
    that never wrote a register and one that wrote 0 to it are equivalent
    and not equal, so this relation is coarser than equality; the
    operations of [Registers] and [StackRegister] respect it ([Proper]
    instances), which lets the theorems on sequences of operations
    ([incr_sp] round trips and composition) be
    stated and rewritten up to it. *)

From S2P Require Import Prelude CheckedArith Engine RegisterInfo Registers StackRegister.

Section CtxEquiv.
Context {U : Type} `{EngineLaws U}.

Definition ctx_equiv (u1 u2 : Unicorn U Data) : Prop :=
  data u1 = data u2 /\ forall r, uc_reg_read (inner u1) r = uc_reg_read (inner u2) r.

(** The outcomes of a [&mut self] method: equivalent contexts, equal results. *)
Definition out_equiv {A : Type} (p1 p2 : Unicorn U Data * Result A uc_error) : Prop :=
  ctx_equiv (fst p1) (fst p2) /\ snd p1 = snd p2.

(** [u'] is [u] with the stack pointer (the id [register_info.sp] of [u])
    reading [x]. *)
Definition sp_updated (u : Unicorn U Data) (x : Z) (u' : Unicorn U Data) : Prop :=
  let spid := RegisterInfo.sp (register_info (data u)) in
  data u' = data u /\ uc_reg_read (inner u') spid = Ok x /\
  forall r, r <> spid -> uc_reg_read (inner u') r = uc_reg_read (inner u) r.

#[export] Instance ctx_equiv_equivalence : Equivalence ctx_equiv.
Proof.
  split.
  - intros u. split; reflexivity.
  - intros u1 u2 [Hd Hr]. split; [congruence | intros r; now rewrite Hr].
  - intros u1 u2 u3 [Hd1 Hr1] [Hd2 Hr2]. split; [congruence | intros r; now rewrite Hr1].
Qed.

#[export] Instance out_equiv_equivalence {A : Type} : Equivalence (@out_equiv A).
Proof.
  split.
  - intros p. split; reflexivity.
  - intros p1 p2 [He Hr]. split; now symmetry.
  - intros p1 p2 p3 [He1 Hr1] [He2 Hr2]. split; [etransitivity; eassumption | congruence].
Qed.

(** ** What a write does, read through the engine *)

Lemma write_spec {R : Type} `{IntoI32 R} (reg : R) (v : Z) (u u' : Unicorn U Data) res :
  unicorn_write reg v u = (u', res) ->
  res = match uc_reg_read (inner u) (into reg) with Ok _ => Ok tt | Err e => Err e end /\
  data u' = data u /\
  forall r, uc_reg_read (inner u') r =
    if decide (r = into reg) then
      match res with Ok _ => Ok (low_bits reg_width v) | Err _ => uc_reg_read (inner u) r end
    else uc_reg_read (inner u) r.
Proof.
  intros Hw. destruct (unicorn_write_inv _ _ _ _ _ Hw) as (i' & Hi & ->).
  pose proof (uc_write_result (inner u) (into reg) v) as Hres. rewrite Hi in Hres.
  split; [exact Hres | split; [reflexivity |]]. intros r. simpl.
  destruct res as [[] | e].
  - case_decide as Hr; [subst r; exact (uc_write_read_same _ _ _ _ Hi) |].
    exact (uc_write_read_other _ _ _ _ _ Hi Hr).
  - rewrite (uc_write_err_atomic _ _ _ _ _ Hi). case_decide; reflexivity.
Qed.

#[export] Instance unicorn_read_proper {R : Type} `{IntoI32 R} :
  Proper (ctx_equiv ==> eq ==> eq) (@unicorn_read U _ R _).
Proof. intros u1 u2 [_ Hr] reg _ <-. apply Hr. Qed.

#[export] Instance unicorn_pc_proper : Proper (ctx_equiv ==> eq) (@unicorn_pc U _).
Proof. intros u1 u2 [Hd Hr]. unfold unicorn_pc, get_data. rewrite Hd. apply Hr. Qed.

#[export] Instance unicorn_sp_proper : Proper (ctx_equiv ==> eq) (@unicorn_sp U _).
Proof. intros u1 u2 [Hd Hr]. unfold unicorn_sp, get_data. rewrite Hd. apply Hr. Qed.

#[export] Instance unicorn_write_proper {R : Type} `{IntoI32 R} (reg : R) (v : Z) :
  Proper (ctx_equiv ==> out_equiv) (@unicorn_write U _ R _ reg v).
Proof.
  intros u1 u2 [Hd Hr].
  destruct (unicorn_write reg v u1) as [u1' res1] eqn:E1.
  destruct (unicorn_write reg v u2) as [u2' res2] eqn:E2.
  destruct (write_spec _ _ _ _ _ E1) as (Hres1 & Hd1 & Hr1).
  destruct (write_spec _ _ _ _ _ E2) as (Hres2 & Hd2 & Hr2).
  assert (res1 = res2) as <- by (rewrite Hres1, Hres2, Hr; reflexivity).
  split; [split; simpl; [congruence | intros r] | reflexivity].
  rewrite Hr1, Hr2, Hr. reflexivity.
Qed.

#[export] Instance unicorn_set_pc_proper (v : Z) :
  Proper (ctx_equiv ==> out_equiv) (@unicorn_set_pc U _ v).
Proof.
  intros u1 u2 Heq. unfold unicorn_set_pc, get_data.
  rewrite (proj1 Heq). apply unicorn_write_proper, Heq.
Qed.

#[export] Instance unicorn_set_sp_proper (v : Z) :
  Proper (ctx_equiv ==> out_equiv) (@unicorn_set_sp U _ v).
Proof.
  intros u1 u2 Heq. unfold unicorn_set_sp, get_data.
  rewrite (proj1 Heq). apply unicorn_write_proper, Heq.
Qed.

#[export] Instance incr_sp_proper (d : Z) :
  Proper (ctx_equiv ==> out_equiv) (incr_sp (C := Unicorn U Data) d).
Proof.
  intros u1 u2 Heq. rewrite !incr_sp_unfold. simpl.
  rewrite (unicorn_sp_proper _ _ Heq).
  destruct (unicorn_sp u2) as [s | e]; [| exact (conj Heq eq_refl)].
  destruct (checked_add_signed s d) as [n |]; [| exact (conj Heq eq_refl)].
  pose proof (unicorn_set_sp_proper n _ _ Heq) as [Hs Hres].
  destruct (unicorn_set_sp n u1) as [u1' [[] | e1]], (unicorn_set_sp n u2) as [u2' [[] | e2]];
    simpl in *; try discriminate; split; simpl; first [exact Hs | congruence].
Qed.

(** ** A successful [incr_sp] changes the stack pointer and nothing else *)

Lemma incr_sp_ok_updates (d n : Z) (u u' : Unicorn U Data) :
  incr_sp d u = (u', Ok n) ->
  sp_updated u (low_bits reg_width n) u' /\
  (reg_wf (inner u) = true -> reg_wf (inner u') = true).
Proof.
  rewrite incr_sp_unfold. simpl.
  destruct (unicorn_sp u) as [s | e]; [| discriminate].
  destruct (checked_add_signed s d) as [m |]; [| discriminate].
  destruct (unicorn_set_sp m u) as [u'' [[] | e]] eqn:Hw; [| discriminate].
  intros [= <- <-]. unfold unicorn_set_sp, get_data in Hw.
  destruct (write_spec _ _ _ _ _ Hw) as (_ & Hd & Hr).
  split; [split; [exact Hd | split] |].
  - rewrite Hr. by rewrite decide_True.
  - intros r Hne. rewrite Hr. by rewrite decide_False.
  - intros Hwf. destruct (unicorn_write_inv _ _ _ _ _ Hw) as (i' & Hi & ->).
    exact (uc_write_wf _ _ _ _ _ Hwf Hi).
Qed.

Lemma sp_updated_equiv (u u1 u2 : Unicorn U Data) (x : Z) :
  sp_updated u x u1 -> sp_updated u x u2 -> ctx_equiv u1 u2.
Proof.
  intros (Hd1 & Hs1 & Hr1) (Hd2 & Hs2 & Hr2). split; [congruence | intros r].
  destruct (decide (r = RegisterInfo.sp (register_info (data u)))) as [-> | Hne].
  - congruence.
  - rewrite Hr1, Hr2 by exact Hne. reflexivity.
Qed.

Lemma sp_updated_trans (u u1 u2 : Unicorn U Data) (x y : Z) :
  sp_updated u x u1 -> sp_updated u1 y u2 -> sp_updated u y u2.
Proof.
  intros (Hd1 & Hs1 & Hr1) (Hd2 & Hs2 & Hr2). rewrite Hd1 in Hs2, Hr2.
  split; [congruence | split; [exact Hs2 |]].
  intros r Hne. rewrite Hr2, Hr1 by exact Hne. reflexivity.
Qed.

(** Writing back the value the stack pointer held gives an equivalent context. *)
Lemma sp_updated_same (u u' : Unicorn U Data) (x : Z) :
  sp_updated u x u' -> unicorn_sp u = Ok x -> ctx_equiv u' u.
Proof.
  intros (Hd & Hs & Hr) Hsp. split; [exact Hd | intros r].
  destruct (decide (r = RegisterInfo.sp (register_info (data u)))) as [-> | Hne].
  - rewrite Hs. symmetry. exact Hsp.
  - apply Hr, Hne.
Qed.

(** [incr_sp] on a 64-bit engine, when the sum fits: the result, the new
    context, and the invariant. *)
Lemma incr_sp_fits_64 (d s : Z) (u : Unicorn U Data) :
  reg_width = 64 -> reg_wf (inner u) = true ->
  - 2 ^ 63 <= d < 2 ^ 63 -> unicorn_sp u = Ok s -> 0 <= s + d < 2 ^ 64 ->
  exists u', incr_sp d u = (u', Ok (s + d)) /\ sp_updated u (s + d) u' /\
             reg_wf (inner u') = true.
Proof.
  intros Hw64 Hwf Hd Hsp Hin.
  destruct (unicorn_incr_sp_fits d s u Hwf Hd Hsp Hin) as (u' & Hr & _).
  destruct (incr_sp_ok_updates _ _ _ _ Hr) as [Hup Hwf'].
  rewrite Hw64, low_bits_small in Hup by lia.
  exists u'. auto.
Qed.

Lemma sp_updated_sp (u u' : Unicorn U Data) (x : Z) :
  sp_updated u x u' -> unicorn_sp u' = Ok x.
Proof.
  intros (Hd & Hs & _). unfold unicorn_sp, get_data. rewrite Hd. exact Hs.
Qed.

(** ** Sequences of operations, up to [ctx_equiv] *)

(** Round trip: on a 64-bit engine, [incr_sp d] followed by
    [incr_sp (-d)] returns the stack pointer it started from and a context
    equivalent to the first. *)
Theorem incr_sp_roundtrip (d s : Z) (u : Unicorn U Data) :
  reg_width = 64 -> reg_wf (inner u) = true ->
  - 2 ^ 63 < d < 2 ^ 63 -> unicorn_sp u = Ok s -> 0 <= s + d < 2 ^ 64 ->
  exists u1 u2, incr_sp d u = (u1, Ok (s + d)) /\ incr_sp (- d) u1 = (u2, Ok s) /\
                ctx_equiv u2 u.
Proof.
  intros Hw64 Hwf Hd Hsp Hin. pose proof (unicorn_sp_range _ _ Hwf Hsp).
  destruct (incr_sp_fits_64 d s u Hw64 Hwf ltac:(lia) Hsp Hin) as (u1 & E1 & Up1 & Wf1).
  destruct (incr_sp_fits_64 (- d) (s + d) u1 Hw64 Wf1 ltac:(lia) (sp_updated_sp _ _ _ Up1)
              ltac:(lia)) as (u2 & E2 & Up2 & _).
  replace (s + d + - d) with s in * by lia.
  exists u1, u2. split; [exact E1 | split; [exact E2 |]].
  exact (sp_updated_same _ _ _ (sp_updated_trans _ _ _ _ _ Up1 Up2) Hsp).
Qed.

(** Composition: on a 64-bit engine, [incr_sp d1] then [incr_sp d2] reaches
    the value and, up to [ctx_equiv], the context of [incr_sp (d1 + d2)],
    when every intermediate value fits. *)
Theorem incr_sp_compose (d1 d2 s : Z) (u : Unicorn U Data) :
  reg_width = 64 -> reg_wf (inner u) = true ->
  - 2 ^ 63 <= d1 < 2 ^ 63 -> - 2 ^ 63 <= d2 < 2 ^ 63 -> - 2 ^ 63 <= d1 + d2 < 2 ^ 63 ->
  unicorn_sp u = Ok s -> 0 <= s + d1 < 2 ^ 64 -> 0 <= s + d1 + d2 < 2 ^ 64 ->
  exists u1 u12 u', incr_sp d1 u = (u1, Ok (s + d1)) /\
    incr_sp d2 u1 = (u12, Ok (s + d1 + d2)) /\
    incr_sp (d1 + d2) u = (u', Ok (s + d1 + d2)) /\ ctx_equiv u12 u'.
Proof.
  intros Hw64 Hwf Hd1 Hd2 Hd12 Hsp Hin1 Hin2.
  destruct (incr_sp_fits_64 d1 s u Hw64 Hwf Hd1 Hsp Hin1) as (u1 & E1 & Up1 & Wf1).
  destruct (incr_sp_fits_64 d2 (s + d1) u1 Hw64 Wf1 Hd2 (sp_updated_sp _ _ _ Up1) Hin2)
    as (u12 & E12 & Up12 & _).
  destruct (incr_sp_fits_64 (d1 + d2) s u Hw64 Hwf Hd12 Hsp ltac:(lia)) as (u' & E' & Up' & _).
  rewrite Z.add_assoc in E', Up'.
  exists u1, u12, u'. split; [exact E1 | split; [exact E12 | split; [exact E' |]]].
  exact (sp_updated_equiv _ _ _ _ (sp_updated_trans _ _ _ _ _ Up1 Up12) Up').
Qed.
End CtxEquiv.
