(* ===== verification/Session.v ===== *)
(** * Sequences of register operations

    The runner calls the methods of [Registers] and [StackRegister] one
    after another between emulation steps, and treats an error as fatal to
    the step (spec sections 5 and 7): it propagates it with [?].  [Op] names
    the methods, [exec] runs one on the [Unicorn] context, [run] runs a
    list and stops at the first error, and [targets_sp] names the calls
    that may change the SP.  The theorems show that a sequence of calls
    that does not target the SP leaves it unchanged, and that loops of
    pushes (and of pops on a 64-bit engine) terminate with [EXCEPTION] at
    a bound computed from SP while pops on a 32-bit engine never stop. *)

From Stdlib Require Import List.
From S2P Require Import Prelude CheckedArith Engine RegisterInfo Registers StackRegister Equiv.
Import ListNotations.

(** The methods of the two traits, as calls. *)
Inductive Op : Type :=
| Read (r : Z)
| Write (r v : Z)
| Pc
| SetPc (v : Z)
| Sp
| SetSp (v : Z)
| IncrSp (d : Z).

(** What a call returns: a [u64] or [()]. *)
Inductive Outcome : Type :=
| Value (x : Z)
| Done.

Section Session.
Context {U : Type} `{Engine U}.
Local Open Scope omo_scope.

Definition exec (o : Op) : StM (Unicorn U Data) uc_error Outcome :=
  match o with
  | Read r => st_ref (fun u => res_map Value (unicorn_read u r))
  | Write r v => st_map (fun _ => Done) (unicorn_write r v)
  | Pc => st_ref (fun u => res_map Value (unicorn_pc u))
  | SetPc v => st_map (fun _ => Done) (unicorn_set_pc v)
  | Sp => st_ref (fun u => res_map Value (unicorn_sp u))
  | SetSp v => st_map (fun _ => Done) (unicorn_set_sp v)
  | IncrSp d => st_map Value (incr_sp d)
  end.

(** The calls in order, each with [?]: the first error ends the sequence. *)
Fixpoint run (ops : list Op) : StM (Unicorn U Data) uc_error (list Outcome) :=
  match ops with
  | [] => st_ret []
  | o :: os =>
      do x <- exec o ;
      do xs <- run os ;
      st_ret (x :: xs)
  end.

(** The calls that may change the register named by [spid]: a raw write
    of that id, [set_pc] when the PC id [pcid] is the same id, and the two
    SP setters. *)
Definition targets_sp (spid pcid : Z) (o : Op) : bool :=
  match o with
  | Write r _ => bool_decide (r = spid)
  | SetPc _ => bool_decide (pcid = spid)
  | SetSp _ | IncrSp _ => true
  | Read _ | Pc | Sp => false
  end.
End Session.

Section SessionProofs.
Context {U : Type} `{EngineLaws U}.
Local Open Scope omo_scope.

(** A call ends in the context it started from, or in one a register
    write produced. *)
Lemma exec_state (o : Op) (u u' : Unicorn U Data) res :
  exec o u = (u', res) ->
  u' = u \/ exists (r v : Z) res', unicorn_write r v u = (u', res').
Proof.
  destruct o as [r | r v | | v | | v | d]; simpl;
    try (intros [= <- _]; now left).
  - destruct (unicorn_write r v u) as [u'' r'] eqn:Hw. intros Heq. inversion Heq; subst. eauto.
  - destruct (unicorn_set_pc v u) as [u'' r'] eqn:Hw. intros Heq. inversion Heq; subst. eauto.
  - destruct (unicorn_set_sp v u) as [u'' r'] eqn:Hw. intros Heq. inversion Heq; subst. eauto.
  - destruct (incr_sp d u) as [u'' r'] eqn:Hi. intros Heq. inversion Heq; subst.
    destruct (incr_sp_state _ _ _ _ Hi) as [-> | (n & r'' & Hw)]; eauto.
Qed.

Lemma exec_preserves_inv (dt : Data) (o : Op) (u u' : Unicorn U Data) res :
  unicorn_inv dt u -> exec o u = (u', res) -> unicorn_inv dt u'.
Proof.
  intros Hinv Hx. destruct (exec_state _ _ _ _ Hx) as [-> | (r & v & r' & Hw)].
  - exact Hinv.
  - exact (write_preserves_inv _ _ _ _ _ _ Hinv Hw).
Qed.

(** A write of one id leaves the user data and the read of every other
    id as they were, whether it succeeds or fails. *)
Lemma write_frame (r r' v : Z) (u u' : Unicorn U Data) res :
  unicorn_write r v u = (u', res) -> r' <> r ->
  data u' = data u /\ uc_reg_read (inner u') r' = uc_reg_read (inner u) r'.
Proof.
  intros Hw Hne. destruct (write_spec _ _ _ _ _ Hw) as (_ & Hd & Hread).
  split; [exact Hd |]. rewrite Hread. by rewrite decide_False.
Qed.

(** A call that does not target the SP leaves [sp] and the user data
    unchanged. *)
Lemma exec_sp_frame (o : Op) (u u' : Unicorn U Data) res :
  let info := register_info (data u) in
  targets_sp (RegisterInfo.sp info) (RegisterInfo.pc info) o = false ->
  exec o u = (u', res) ->
  data u' = data u /\ unicorn_sp u' = unicorn_sp u.
Proof.
  intros info Ht. unfold unicorn_sp, unicorn_read, reg_read, get_data.
  destruct o as [r | r v | | v | | v | d]; simpl in Ht |- *;
    try (intros [= <- _]; auto); try discriminate.
  - destruct (unicorn_write r v u) as [u1 r1] eqn:Hw. intros [= <- _].
    apply bool_decide_eq_false in Ht.
    destruct (write_frame _ _ _ _ _ _ Hw (not_eq_sym Ht)) as [-> Hr]. auto.
  - destruct (unicorn_set_pc v u) as [u1 r1] eqn:Hw. intros [= <- _].
    apply bool_decide_eq_false in Ht.
    destruct (write_frame _ _ _ _ _ _ Hw (not_eq_sym Ht)) as [-> Hr]. auto.
Qed.

(** A push ([incr_sp] with a negative delta) that stays at or above 0
    lands exactly on [s + d] on an engine of either width: the value is
    below the old SP, so narrowing to the register width keeps it. *)
Lemma push_fits (d s : Z) (u : Unicorn U Data) :
  reg_wf (inner u) = true -> - 2 ^ 63 <= d < 0 -> unicorn_sp u = Ok s -> 0 <= s + d ->
  exists u', incr_sp d u = (u', Ok (s + d)) /\ unicorn_sp u' = Ok (s + d) /\
             reg_wf (inner u') = true.
Proof.
  intros Hwf Hd Hsp Hnn. pose proof pow_reg_width_le. pose proof reg_width_nonneg.
  pose proof (uc_read_range (inner u) _ s Hwf Hsp) as Hr.
  destruct (unicorn_incr_sp_fits d s u Hwf ltac:(lia) Hsp ltac:(lia)) as (u' & Hi & Hs').
  destruct (incr_sp_ok_updates _ _ _ _ Hi) as [_ Hwf'].
  rewrite low_bits_small in Hs' by lia. eauto.
Qed.

(** A call of [incr_sp] at the head of a run: an overflow ends the run
    at once, with the context unchanged ... *)
Lemma run_incr_sp_overflow (d s : Z) (os : list Op) (u : Unicorn U Data) :
  reg_wf (inner u) = true -> - 2 ^ 63 <= d < 2 ^ 63 -> unicorn_sp u = Ok s ->
  s + d < 0 \/ 2 ^ 64 <= s + d ->
  run (IncrSp d :: os) u = (u, Err EXCEPTION).
Proof.
  intros Hwf Hd Hsp Hov.
  assert (incr_sp d u = (u, Err EXCEPTION)) as Hi
    by (apply (incr_sp_overflow d s u);
        [exact Hd | exact Hsp | exact (unicorn_sp_range _ _ Hwf Hsp) | exact Hov]).
  simpl. rewrite Hi. reflexivity.
Qed.

(** ... and a success is followed by the run of the rest. *)
Lemma run_incr_sp_ok (d n : Z) (os : list Op) (u u1 : Unicorn U Data) :
  incr_sp d u = (u1, Ok n) ->
  run (IncrSp d :: os) u = (fst (run os u1), res_map (cons (Value n)) (snd (run os u1))).
Proof.
  intros Hi. simpl. rewrite Hi. simpl. destruct (run os u1) as [u2 [xs | e]]; reflexivity.
Qed.

(** A pop ([incr_sp] with [0 <= d]) on a 32-bit engine: it succeeds, and
    SP holds the sum modulo [2^32]. *)
Lemma pop_step_32 (d s : Z) (u : Unicorn U Data) :
  reg_width = 32 -> reg_wf (inner u) = true -> 0 <= d < 2 ^ 63 -> unicorn_sp u = Ok s ->
  exists u', incr_sp d u = (u', Ok (s + d)) /\ unicorn_sp u' = Ok ((s + d) mod 2 ^ 32) /\
             reg_wf (inner u') = true.
Proof.
  intros Hw32 Hwf Hd Hsp.
  pose proof (uc_read_range (inner u) _ s Hwf Hsp) as Hr. rewrite Hw32 in Hr.
  destruct (unicorn_incr_sp_fits d s u Hwf ltac:(lia) Hsp ltac:(lia)) as (u' & Hi & Hs').
  destruct (incr_sp_ok_updates _ _ _ _ Hi) as [_ Hwf'].
  rewrite low_bits_mod, Hw32 in Hs' by (rewrite Hw32; lia). eauto.
Qed.

(** Termination of a push loop: a caller that repeats [incr_sp d] with
    [d < 0] (the measure is the SP value, bounded below by 0) is stopped by
    [EXCEPTION] within [n] calls whenever [s < n * |d|]; it never wraps
    below 0.  The failing call leaves the SP at [s mod |d|], after exactly
    [s / |d|] successful pushes. *)
Theorem push_loop_stops (d s : Z) (n : nat) (u : Unicorn U Data) :
  reg_wf (inner u) = true -> - 2 ^ 63 <= d < 0 -> unicorn_sp u = Ok s ->
  s < Z.of_nat n * - d ->
  exists u', run (repeat (IncrSp d) n) u = (u', Err EXCEPTION) /\
             unicorn_sp u' = Ok (s mod - d).
Proof.
  revert s u. induction n as [| k IH]; intros s u Hwf Hd Hsp Hlt.
  - pose proof (unicorn_sp_range _ _ Hwf Hsp). lia.
  - pose proof (unicorn_sp_range _ _ Hwf Hsp) as Hr. simpl repeat.
    destruct (Z.ltb_spec (s + d) 0) as [Hneg | Hnn].
    + rewrite (run_incr_sp_overflow d s) by (auto || lia).
      exists u. rewrite Z.mod_small by lia. auto.
    + destruct (push_fits d s u Hwf Hd Hsp Hnn) as (u1 & Hi & Hs1 & Hwf1).
      rewrite (run_incr_sp_ok _ _ _ _ _ Hi). rewrite Nat2Z.inj_succ in Hlt.
      destruct (IH (s + d) u1 Hwf1 Hd Hs1 ltac:(nia)) as (u' & -> & Hs').
      exists u'. split; [reflexivity |]. rewrite Hs'.
      replace (s + d) with (s + (-1) * - d) by ring. by rewrite Z_mod_plus_full.
Qed.

(** Termination of a pop loop on a 64-bit engine: repeating [incr_sp d]
    with [0 < d] is stopped by [EXCEPTION] within [n] calls whenever
    [2^64 <= s + n * d]; SP never wraps past [u64::MAX], and the failing
    call leaves it at the last value within [d] of the top,
    [u64::MAX - (u64::MAX - s) mod d]. *)
Theorem pop_loop_stops_64 (d s : Z) (n : nat) (u : Unicorn U Data) :
  reg_width = 64 -> reg_wf (inner u) = true -> 0 < d < 2 ^ 63 -> unicorn_sp u = Ok s ->
  2 ^ 64 <= s + Z.of_nat n * d ->
  exists u', run (repeat (IncrSp d) n) u = (u', Err EXCEPTION) /\
             unicorn_sp u' = Ok (u64_max - (u64_max - s) mod d).
Proof.
  unfold u64_max. revert s u. induction n as [| k IH]; intros s u Hw64 Hwf Hd Hsp Hlt.
  - pose proof (unicorn_sp_range _ _ Hwf Hsp). lia.
  - pose proof (unicorn_sp_range _ _ Hwf Hsp) as Hr. simpl repeat.
    destruct (Z.leb_spec (2 ^ 64) (s + d)) as [Hov | Hin].
    + rewrite (run_incr_sp_overflow d s) by (auto || lia).
      exists u. rewrite Z.mod_small by lia. split; [reflexivity | rewrite Hsp; f_equal; lia].
    + destruct (incr_sp_fits_64 d s u Hw64 Hwf ltac:(lia) Hsp ltac:(lia))
        as (u1 & Hi & Hup & Hwf1).
      rewrite (run_incr_sp_ok _ _ _ _ _ Hi). rewrite Nat2Z.inj_succ in Hlt.
      destruct (IH (s + d) u1 Hw64 Hwf1 Hd (sp_updated_sp _ _ _ Hup) ltac:(nia))
        as (u' & -> & Hs').
      exists u'. split; [reflexivity |]. rewrite Hs'.
      replace (2 ^ 64 - 1 - (s + d)) with (2 ^ 64 - 1 - s + (-1) * d) by ring.
      by rewrite Z_mod_plus_full.
Qed.

(** A pop loop on a 32-bit engine never stops: every one of [n] calls of
    [incr_sp d] with [0 <= d] succeeds, and SP ends at [s + n * d] modulo
    [2^32], however far that is past the top of the address space. *)
Theorem pop_loop_wraps_32 (d s : Z) (n : nat) (u : Unicorn U Data) :
  reg_width = 32 -> reg_wf (inner u) = true -> 0 <= d < 2 ^ 63 -> unicorn_sp u = Ok s ->
  exists u' xs, run (repeat (IncrSp d) n) u = (u', Ok xs) /\
                unicorn_sp u' = Ok ((s + Z.of_nat n * d) mod 2 ^ 32).
Proof.
  revert s u. induction n as [| k IH]; intros s u Hw32 Hwf Hd Hsp.
  - pose proof (uc_read_range (inner u) _ s Hwf Hsp) as Hr. rewrite Hw32 in Hr.
    exists u, []. rewrite Z.mod_small by lia. split; [reflexivity | rewrite Hsp; f_equal; lia].
  - simpl repeat. destruct (pop_step_32 d s u Hw32 Hwf Hd Hsp) as (u1 & Hi & Hs1 & Hwf1).
    rewrite (run_incr_sp_ok _ _ _ _ _ Hi).
    destruct (IH _ u1 Hw32 Hwf1 Hd Hs1) as (u' & xs & -> & Hs').
    exists u', (Value (s + d) :: xs). split; [reflexivity |]. rewrite Hs', Z.add_mod_idemp_l by lia.
    f_equal. f_equal. lia.
Qed.

(** SP frame over a session: a sequence of calls none of which targets
    the SP (no raw write of the SP id, no [set_sp] or [incr_sp], and no
    [set_pc] unless the PC id differs from the SP id) ends, successfully or
    at its first error, in a context where [sp] reads what it read at the
    start. *)
Theorem run_sp_frame (ops : list Op) (u : Unicorn U Data) :
  forallb (fun o => negb (targets_sp (RegisterInfo.sp (register_info (data u)))
                                     (RegisterInfo.pc (register_info (data u))) o)) ops = true ->
  unicorn_sp (fst (run ops u)) = unicorn_sp u.
Proof.
  revert u. induction ops as [| o os IH]; intros u Hops; [reflexivity |].
  simpl in Hops. apply andb_true_iff in Hops as [Ho Hos]. apply negb_true_iff in Ho.
  simpl. destruct (exec o u) as [u1 r1] eqn:Hx.
  destruct (exec_sp_frame _ _ _ _ Ho Hx) as [Hd Hsp].
  destruct r1 as [x | e]; [| exact Hsp].
  rewrite <- Hd in Hos. specialize (IH u1 Hos).
  destruct (run os u1) as [u2 [xs | e]]; simpl in IH |- *; congruence.
Qed.
End SessionProofs.
