(* ===== verification/Abstract.v ===== *)
(** * An abstract register machine and the refinement of the [Unicorn] implementation

    The spec (sections 3, 4 and 8) describes the register layer without an
    engine: a register file whose ids read a [u64] or fail, a [RegisterInfo]
    naming the PC and SP ids, writes that succeed where a read succeeds and
    keep the low [w] bits, and [incr_sp] as "read SP; fail with
    [EXCEPTION] if the sum leaves [u64]; otherwise write it and return it".
    [AbsMachine] is that machine, with the register file as a total
    function; [am_exec] and [am_run] run the calls of [Session.Op] on it.
    [abs] maps a [Unicorn] context to the machine it implements, and
    [run_refines] is the simulation: from a well-formed context and any
    machine equivalent to its abstraction, a sequence of calls on the code
    and on the machine gives the same results and equivalent machines. *)

From Stdlib Require Import List.
From S2P Require Import Prelude CheckedArith Engine RegisterInfo Registers StackRegister Equiv Session.
Import ListNotations.

Record AbsMachine : Type := mkAbs {
  am_regs : Z -> Result Z uc_error;
  am_info : RegisterInfo.RegisterInfo;
}.

Section Machine.
Variable w : Z.

(** A write succeeds exactly where a read does, and keeps the low [w] bits. *)
Definition am_write (r v : Z) (m : AbsMachine) : AbsMachine * Result unit uc_error :=
  match am_regs m r with
  | Ok _ =>
      (mkAbs (fun r' => if decide (r' = r) then Ok (low_bits w v) else am_regs m r')
             (am_info m), Ok tt)
  | Err e => (m, Err e)
  end.

Definition am_pc (m : AbsMachine) : Result Z uc_error :=
  am_regs m (RegisterInfo.pc (am_info m)).

Definition am_sp (m : AbsMachine) : Result Z uc_error :=
  am_regs m (RegisterInfo.sp (am_info m)).

(** Spec 4.2, on mathematical integers. *)
Definition am_incr_sp (d : Z) (m : AbsMachine) : AbsMachine * Result Z uc_error :=
  match am_sp m with
  | Err e => (m, Err e)
  | Ok s =>
      if in_u64 (s + d)
      then let '(m', r) := am_write (RegisterInfo.sp (am_info m)) (s + d) m in
           (m', res_map (fun _ => s + d) r)
      else (m, Err EXCEPTION)
  end.

Definition am_exec (o : Op) (m : AbsMachine) : AbsMachine * Result Outcome uc_error :=
  match o with
  | Read r => (m, res_map Value (am_regs m r))
  | Write r v => let '(m', x) := am_write r v m in (m', res_map (fun _ => Done) x)
  | Pc => (m, res_map Value (am_pc m))
  | SetPc v =>
      let '(m', x) := am_write (RegisterInfo.pc (am_info m)) v m in
      (m', res_map (fun _ => Done) x)
  | Sp => (m, res_map Value (am_sp m))
  | SetSp v =>
      let '(m', x) := am_write (RegisterInfo.sp (am_info m)) v m in
      (m', res_map (fun _ => Done) x)
  | IncrSp d => let '(m', x) := am_incr_sp d m in (m', res_map Value x)
  end.

Fixpoint am_run (ops : list Op) (m : AbsMachine) : AbsMachine * Result (list Outcome) uc_error :=
  match ops with
  | [] => (m, Ok [])
  | o :: os =>
      match am_exec o m with
      | (m', Ok x) =>
          match am_run os m' with
          | (m'', Ok xs) => (m'', Ok (x :: xs))
          | (m'', Err e) => (m'', Err e)
          end
      | (m', Err e) => (m', Err e)
      end
  end.

(** The Rust types of the arguments: the delta of [incr_sp] is an [i64]. *)
Definition op_wt (o : Op) : bool :=
  match o with
  | IncrSp d => in_i64 d
  | _ => true
  end.

(** Two machines with the same ids and the same reads. *)
Definition am_equiv (m1 m2 : AbsMachine) : Prop :=
  am_info m1 = am_info m2 /\ forall r, am_regs m1 r = am_regs m2 r.

Definition am_out_equiv {A : Type} (p1 p2 : AbsMachine * Result A uc_error) : Prop :=
  am_equiv (fst p1) (fst p2) /\ snd p1 = snd p2.
End Machine.

Section Abstraction.
Context {U : Type} `{Engine U}.

(** The machine a [Unicorn] context implements. *)
Definition abs (u : Unicorn U Data) : AbsMachine :=
  mkAbs (uc_reg_read (inner u)) (register_info (data u)).
End Abstraction.

Section MachineFacts.
Variable w : Z.

#[export] Instance am_equiv_equivalence : Equivalence am_equiv.
Proof.
  split.
  - intros m. split; reflexivity.
  - intros m1 m2 [Hi Hr]. split; [congruence | intros r; now rewrite Hr].
  - intros m1 m2 m3 [Hi1 Hr1] [Hi2 Hr2]. split; [congruence | intros r; now rewrite Hr1].
Qed.

Lemma am_out_equiv_trans {A : Type} (p1 p2 p3 : AbsMachine * Result A uc_error) :
  am_out_equiv p1 p2 -> am_out_equiv p2 p3 -> am_out_equiv p1 p3.
Proof. intros [He1 Hr1] [He2 Hr2]. split; [etrans; eassumption | congruence]. Qed.

Lemma am_out_map {A B : Type} (f : A -> B) (p1 p2 : AbsMachine * Result A uc_error) :
  am_out_equiv p1 p2 ->
  am_out_equiv (let '(m, x) := p1 in (m, res_map f x)) (let '(m, x) := p2 in (m, res_map f x)).
Proof. destruct p1, p2. intros [He Hr]. simpl in *. subst. split; reflexivity || exact He. Qed.

Lemma am_write_proper (r v : Z) (m1 m2 : AbsMachine) :
  am_equiv m1 m2 -> am_out_equiv (am_write w r v m1) (am_write w r v m2).
Proof.
  intros [Hi Hr]. unfold am_write. rewrite Hr.
  destruct (am_regs m2 r); [| split; [split; assumption | reflexivity]].
  split; [split; [exact Hi | intros r'; simpl; now rewrite Hr] | reflexivity].
Qed.

Lemma am_exec_proper (o : Op) (m1 m2 : AbsMachine) :
  am_equiv m1 m2 -> am_out_equiv (am_exec w o m1) (am_exec w o m2).
Proof.
  intros Heq. pose proof Heq as [Hi Hr].
  destruct o as [r | r v | | v | | v | d]; simpl.
  - split; [exact Heq | simpl; now rewrite Hr].
  - apply am_out_map, am_write_proper, Heq.
  - split; [exact Heq | unfold am_pc; simpl; now rewrite Hi, Hr].
  - rewrite Hi. apply am_out_map, am_write_proper, Heq.
  - split; [exact Heq | unfold am_sp; simpl; now rewrite Hi, Hr].
  - rewrite Hi. apply am_out_map, am_write_proper, Heq.
  - apply am_out_map. unfold am_incr_sp, am_sp. rewrite Hi, Hr.
    destruct (am_regs m2 (RegisterInfo.sp (am_info m2))) as [s | e];
      [| split; [exact Heq | reflexivity]].
    destruct (in_u64 (s + d)); [| split; [exact Heq | reflexivity]].
    apply am_out_map, am_write_proper, Heq.
Qed.
End MachineFacts.

Section Refinement.
Context {U : Type} `{EngineLaws U}.

Lemma write_refines {R : Type} `{IntoI32 R} (reg : R) (v : Z) (u u' : Unicorn U Data) res :
  unicorn_write reg v u = (u', res) ->
  am_out_equiv (abs u', res) (am_write reg_width (into reg) v (abs u)).
Proof.
  intros Hw. destruct (write_spec _ _ _ _ _ Hw) as (Hres & Hd & Hr).
  unfold am_write. simpl.
  destruct (uc_reg_read (inner u) (into reg)) as [x | e] eqn:E; subst res.
  - split; [split; [simpl; congruence | intros r; simpl; rewrite Hr; reflexivity] | reflexivity].
  - split; [split; [simpl; congruence | intros r; simpl; rewrite Hr] | reflexivity].
    case_decide; subst; auto.
Qed.

Lemma incr_sp_refines_abs (d : Z) (u u' : Unicorn U Data) res :
  reg_wf (inner u) = true -> - 2 ^ 63 <= d < 2 ^ 63 ->
  incr_sp d u = (u', res) ->
  am_out_equiv (abs u', res) (am_incr_sp reg_width d (abs u)).
Proof.
  intros Hwf Hd. rewrite incr_sp_unfold. unfold am_incr_sp.
  change (am_sp (abs u)) with (unicorn_sp u). simpl.
  destruct (unicorn_sp u) as [s | e] eqn:Hsp; [| intros [= <- <-]; split; reflexivity].
  pose proof (unicorn_sp_range _ _ Hwf Hsp).
  rewrite checked_add_signed_eq_spec by lia. unfold add_signed_spec. fold (in_u64 (s + d)).
  destruct (in_u64 (s + d)); [| intros [= <- <-]; split; reflexivity].
  destruct (unicorn_set_sp (s + d) u) as [u'' r] eqn:Hw.
  unfold unicorn_set_sp, get_data in Hw. pose proof (write_refines _ _ _ _ _ Hw) as Href.
  destruct (am_write reg_width _ (s + d) (abs u)) as [m' x]. destruct Href as [He Hr].
  simpl in He, Hr. subst x. intros Heq. assert (u'' = u') as <- by (destruct r; congruence).
  split; [exact He | destruct r as [[] | e]; simpl; congruence].
Qed.

(** One call on the code refines the same call on the abstract machine. *)
Lemma exec_refines (o : Op) (u u' : Unicorn U Data) res :
  reg_wf (inner u) = true -> op_wt o = true -> exec o u = (u', res) ->
  am_out_equiv (abs u', res) (am_exec reg_width o (abs u)).
Proof.
  intros Hwf Hwt. destruct o as [r | r v | | v | | v | d]; simpl.
  - intros [= <- <-]. split; reflexivity.
  - destruct (unicorn_write r v u) as [u'' x] eqn:Hw. intros [= <- <-].
    exact (am_out_map _ (abs u'', x) _ (write_refines _ _ _ _ _ Hw)).
  - intros [= <- <-]. split; reflexivity.
  - destruct (unicorn_set_pc v u) as [u'' x] eqn:Hw. intros [= <- <-].
    exact (am_out_map _ (abs u'', x) _ (write_refines _ _ _ _ _ Hw)).
  - intros [= <- <-]. split; reflexivity.
  - destruct (unicorn_set_sp v u) as [u'' x] eqn:Hw. intros [= <- <-].
    exact (am_out_map _ (abs u'', x) _ (write_refines _ _ _ _ _ Hw)).
  - apply in_i64_spec in Hwt.
    destruct (incr_sp d u) as [u'' x] eqn:Hi. intros [= <- <-].
    exact (am_out_map _ (abs u'', x) _ (incr_sp_refines_abs _ _ _ _ Hwf Hwt Hi)).
Qed.

(** Simulation: from a well-formed context [u] and any machine [m]
    equivalent to [abs u], a sequence of well-typed calls run on the code
    and on the machine returns the same result and ends in a context whose
    abstraction is equivalent to the machine's final state. *)
Theorem run_refines (ops : list Op) (u : Unicorn U Data) (m : AbsMachine) :
  reg_wf (inner u) = true -> forallb op_wt ops = true -> am_equiv (abs u) m ->
  am_out_equiv (abs (fst (run ops u)), snd (run ops u)) (am_run reg_width ops m).
Proof.
  revert u m. induction ops as [| o os IH]; intros u m Hwf Hwt Heq; simpl.
  - split; [exact Heq | reflexivity].
  - apply andb_true_iff in Hwt as [Hwt Hwts].
    destruct (exec o u) as [u1 r1] eqn:Hx.
    pose proof (am_out_equiv_trans _ _ _ (exec_refines _ _ _ _ Hwf Hwt Hx)
                  (am_exec_proper reg_width o _ _ Heq)) as [He1 Hr1].
    destruct (am_exec reg_width o m) as [m1 x1]. simpl in He1, Hr1. subst x1.
    destruct r1 as [x | e]; [| split; [exact He1 | reflexivity]].
    assert (Hwf1 : reg_wf (inner u1) = true)
      by exact (proj1 (exec_preserves_inv (data u) _ _ _ _ (conj Hwf eq_refl) Hx)).
    pose proof (IH _ _ Hwf1 Hwts He1) as [He2 Hr2]. simpl.
    destruct (run os u1) as [u2 r2], (am_run reg_width os m1) as [m2 x2].
    simpl in He2, Hr2. subst x2. destruct r2; split; assumption || reflexivity.
Qed.
End Refinement.
