(* ===== verification/Scenarios.v ===== *)
(** * Concrete runs of the register layer

    Two register files of the engine model [Uc]: a 32-bit one (MIPS32, the
    target of mips-runner) and a 64-bit one, each accepting ids 1 to 33,
    with the [RegisterInfo::new(15, 29)] of spec section 8 as the user data.
    The witnesses below apply the general theorems of [Registers] and
    [StackRegister] to these contexts, where every hypothesis is checked by
    computation. *)

From stdpp Require Import gmap.
From S2P Require Import Prelude CheckedArith Engine RegisterInfo Registers StackRegister Equiv Session Abstract.

Definition ids_1_33 (r : Z) : bool := (1 <=? r) && (r <=? 33).

Definition arch32 : Arch :=
  {| arch_width := 32; arch_valid := ids_1_33; arch_width_ok := or_introl eq_refl |}.

Definition arch64 : Arch :=
  {| arch_width := 64; arch_valid := ids_1_33; arch_width_ok := or_intror eq_refl |}.

(** [RegisterInfo::new(15, 29)]: PC id 15, SP id 29. *)
Definition example_data : Data := mkData (RegisterInfo.new (15 : Z) (29 : Z)).

(** A context whose registers hold the given values (the others read 0). *)
Definition ctx_with (a : Arch) (d : Data) (regs : list (Z * Z)) : Unicorn (Uc a) Data :=
  mkUnicorn (mkUc (list_to_map regs)) d.

Definition ctx (a : Arch) (regs : list (Z * Z)) : Unicorn (Uc a) Data :=
  ctx_with a example_data regs.

(** A misconfigured runner: SP id 0 is not a register of the engine. *)
Definition bad_sp_data : Data := mkData (RegisterInfo.new (15 : Z) (0 : Z)).

(** A misconfigured runner: PC id 0 is not a register of the engine. *)
Definition bad_pc_data : Data := mkData (RegisterInfo.new (0 : Z) (29 : Z)).

(** A runner configured with the same id for PC and SP. *)
Definition aliased_data : Data := mkData (RegisterInfo.new (29 : Z) (29 : Z)).

(** A register never written and a register holding 0 read alike. *)
Lemma ctx_zero_equiv : ctx_equiv (ctx arch32 []) (ctx arch32 [(3, 0)]).
Proof.
  split; [reflexivity | intros r]. simpl. unfold uc_read.
  destruct (arch_valid arch32 r); [| reflexivity]. simpl.
  destruct (decide (r = 3)) as [-> | Hne]; [reflexivity |].
  rewrite lookup_insert_ne by congruence. reflexivity.
Qed.

(** ** Witnesses *)

Lemma incr_sp_refines_witness :
  incr_sp 16 (ctx arch64 [(29, 4096)]) = incr_sp_spec 16 (ctx arch64 [(29, 4096)]).
Proof.
  apply incr_sp_refines; [lia |].
  intros s Hs. vm_compute in Hs. injection Hs as <-. lia.
Defined.

Lemma incr_sp_ok_64_witness :
  exists u', incr_sp 16 (ctx arch64 [(29, 4096)]) = (u', Ok (4096 + 16)) /\
             unicorn_sp u' = Ok (4096 + 16).
Proof.
  apply (incr_sp_ok_64 16 4096 (ctx arch64 [(29, 4096)]));
    [reflexivity | reflexivity | lia | reflexivity | lia].
Defined.

(** Spec 8: SP 0, delta -1. *)
Lemma incr_sp_overflow_atomic_witness :
  incr_sp (-1) (ctx arch64 [(29, 0)]) = (ctx arch64 [(29, 0)], Err EXCEPTION).
Proof.
  apply (incr_sp_overflow_atomic (-1) 0); [reflexivity | lia | reflexivity | lia].
Defined.

(** [u64::MAX.checked_add_signed(1)] is [None]. *)
Lemma checked_add_signed_correct_witness :
  checked_add_signed u64_max 1 = if in_u64 (u64_max + 1) then Some (u64_max + 1) else None.
Proof. apply checked_add_signed_correct; unfold u64_max; lia. Defined.

(** On the 32-bit engine, SP [2^32 - 1] plus 1: [incr_sp] returns [2^32],
    and [sp] then reads 0. *)
Lemma incr_sp_narrowed_32_witness :
  exists u', incr_sp 1 (ctx arch32 [(29, 2 ^ 32 - 1)]) = (u', Ok (2 ^ 32 - 1 + 1)) /\
             unicorn_sp u' = Ok ((2 ^ 32 - 1 + 1) mod 2 ^ 32).
Proof.
  apply (incr_sp_narrowed_32 1 (2 ^ 32 - 1) (ctx arch32 [(29, 2 ^ 32 - 1)]));
    [reflexivity | reflexivity | lia | reflexivity | lia].
Defined.

Lemma write_read_same_witness :
  unicorn_read (fst (unicorn_write (3 : Z) 7 (ctx arch32 []))) (3 : Z) =
    Ok (low_bits 32 7).
Proof. exact (write_read_same (3 : Z) 7 (ctx arch32 []) _ eq_refl). Defined.

Lemma set_pc_pc_witness :
  unicorn_pc (fst (unicorn_set_pc 4194304 (ctx arch32 []))) =
    Ok (low_bits 32 4194304).
Proof. exact (set_pc_pc 4194304 (ctx arch32 []) _ eq_refl). Defined.

(** Spec 8: a raw write of id 15 is seen by [pc]. *)
Lemma pc_after_raw_write_witness :
  unicorn_pc (fst (unicorn_write (15 : Z) 4096 (ctx arch32 []))) =
    if decide (15 = RegisterInfo.pc (register_info example_data))
    then Ok (low_bits 32 4096) else unicorn_pc (ctx arch32 []).
Proof. exact (pc_after_raw_write 15 4096 (ctx arch32 []) _ eq_refl). Defined.

(** Spec 8: a raw write of id 29 is seen by [sp]. *)
Lemma sp_after_raw_write_witness :
  unicorn_sp (fst (unicorn_write (29 : Z) 8192 (ctx arch32 []))) =
    if decide (29 = RegisterInfo.sp (register_info example_data))
    then Ok (low_bits 32 8192) else unicorn_sp (ctx arch32 []).
Proof. exact (sp_after_raw_write 29 8192 (ctx arch32 []) _ eq_refl). Defined.

Lemma incr_sp_read_err_witness :
  incr_sp 8 (ctx_with arch32 bad_sp_data []) = (ctx_with arch32 bad_sp_data [], Err ARG).
Proof. apply incr_sp_read_err. reflexivity. Defined.

(** [incr_sp] leaves the PC (id 15) alone. *)
Lemma incr_sp_frame_witness :
  unicorn_read (fst (incr_sp 16 (ctx arch32 [(15, 64); (29, 4096)]))) (15 : Z) =
    unicorn_read (ctx arch32 [(15, 64); (29, 4096)]) (15 : Z).
Proof.
  exact (incr_sp_frame (15 : Z) 16 4112 (ctx arch32 [(15, 64); (29, 4096)]) _
           eq_refl ltac:(discriminate)).
Defined.

(** [set_pc] leaves the SP (id 29) alone. *)
Lemma set_pc_frame_witness :
  unicorn_read (fst (unicorn_set_pc 4194304 (ctx arch32 [(29, 4096)]))) (29 : Z) =
    unicorn_read (ctx arch32 [(29, 4096)]) (29 : Z).
Proof.
  exact (set_pc_frame (29 : Z) 4194304 (ctx arch32 [(29, 4096)]) _
           eq_refl ltac:(discriminate)).
Defined.

Lemma incr_sp_then_sp_witness :
  unicorn_sp (fst (incr_sp 1 (ctx arch32 [(29, 2 ^ 32 - 1)]))) = Ok (low_bits 32 (2 ^ 32)).
Proof.
  exact (incr_sp_then_sp (C := Unicorn (Uc arch32) Data) 32
           unicorn_set_sp_sp 1 (2 ^ 32) (ctx arch32 [(29, 2 ^ 32 - 1)]) _ eq_refl).
Defined.

(** [RegisterInfo::new(29, 29)]: [set_pc] moves the stack pointer. *)
Lemma set_pc_sp_aliasing_witness :
  unicorn_sp (fst (unicorn_set_pc 4194304 (ctx_with arch32 aliased_data [(29, 4096)]))) =
    if decide ((29 : Z) = 29) then Ok (low_bits 32 4194304)
    else unicorn_sp (ctx_with arch32 aliased_data [(29, 4096)]).
Proof.
  exact (set_pc_sp_aliasing (29 : Z) (29 : Z) 4194304 (ctx_with arch32 aliased_data [(29, 4096)]) _
           eq_refl eq_refl).
Defined.

Lemma incr_sp_roundtrip_witness :
  exists u1 u2, incr_sp 16 (ctx arch64 [(29, 4096)]) = (u1, Ok (4096 + 16)) /\
    incr_sp (- 16) u1 = (u2, Ok 4096) /\ ctx_equiv u2 (ctx arch64 [(29, 4096)]).
Proof.
  apply (incr_sp_roundtrip 16 4096 (ctx arch64 [(29, 4096)]));
    [reflexivity | reflexivity | lia | reflexivity | lia].
Defined.

Lemma incr_sp_compose_witness :
  exists u1 u12 u', incr_sp 16 (ctx arch64 [(29, 4096)]) = (u1, Ok (4096 + 16)) /\
    incr_sp (-8) u1 = (u12, Ok (4096 + 16 + -8)) /\
    incr_sp (16 + -8) (ctx arch64 [(29, 4096)]) = (u', Ok (4096 + 16 + -8)) /\
    ctx_equiv u12 u'.
Proof.
  apply (incr_sp_compose 16 (-8) 4096 (ctx arch64 [(29, 4096)]));
    [reflexivity | reflexivity | lia | lia | lia | reflexivity | lia | lia].
Defined.

(** A run of calls on the 32-bit register file and on the abstract machine
    it implements. *)
Lemma run_refines_witness :
  am_out_equiv
    (abs (fst (run [SetPc 4194304; IncrSp 16; Write 40 1; Read 29] (ctx arch32 [(29, 4096)]))),
     snd (run [SetPc 4194304; IncrSp 16; Write 40 1; Read 29] (ctx arch32 [(29, 4096)])))
    (am_run 32 [SetPc 4194304; IncrSp 16; Write 40 1; Read 29] (abs (ctx arch32 [(29, 4096)]))).
Proof.
  exact (run_refines [SetPc 4194304; IncrSp 16; Write 40 1; Read 29] (ctx arch32 [(29, 4096)])
           _ eq_refl eq_refl (conj eq_refl (fun r => eq_refl))).
Defined.

Lemma write_succeeds_witness :
  exists u', unicorn_write (29 : Z) 7 (ctx arch32 [(29, 4096)]) = (u', Ok tt).
Proof. exact (write_succeeds (29 : Z) 7 4096 (ctx arch32 [(29, 4096)]) eq_refl). Defined.

Lemma set_pc_err_witness : unicorn_pc (ctx_with arch32 bad_pc_data []) = Err ARG.
Proof. exact (proj2 (set_pc_err 7 (ctx_with arch32 bad_pc_data []) _ ARG eq_refl)). Defined.

Lemma set_sp_err_witness : unicorn_sp (ctx_with arch32 bad_sp_data []) = Err ARG.
Proof. exact (proj2 (set_sp_err 7 (ctx_with arch32 bad_sp_data []) _ ARG eq_refl)). Defined.

(** A push of 8 bytes from SP 4 overflows below 0: nothing changes. *)
Lemma incr_sp_err_atomic_witness :
  fst (incr_sp (-8) (ctx arch64 [(29, 4)])) = ctx arch64 [(29, 4)].
Proof. exact (proj1 (incr_sp_err_atomic (-8) (ctx arch64 [(29, 4)]) _ EXCEPTION eq_refl)). Defined.

(** Three pushes of 4 bytes from SP 10: two succeed, the third stops at SP 2. *)
Lemma push_loop_stops_witness :
  exists u', run (repeat (IncrSp (-4)) 3) (ctx arch32 [(29, 10)]) = (u', Err EXCEPTION) /\
             unicorn_sp u' = Ok (10 mod - -4).
Proof.
  refine (push_loop_stops (-4) 10 3 (ctx arch32 [(29, 10)]) eq_refl _ eq_refl _); simpl; lia.
Defined.

(** A pop of 16 bytes from SP 0xFFFFFFF8 on MIPS32: [Ok], and SP wraps to 8. *)
Lemma incr_sp_pop_never_fails_32_witness :
  exists u', incr_sp 16 (ctx arch32 [(29, 4294967288)]) = (u', Ok (4294967288 + 16)) /\
             unicorn_sp u' = Ok ((4294967288 + 16) mod 2 ^ 32).
Proof.
  refine (incr_sp_pop_never_fails_32 16 4294967288 (ctx arch32 [(29, 4294967288)])
            eq_refl eq_refl _ eq_refl); lia.
Defined.

(** Three pops of 4 bytes from SP [2^64 - 10] on a 64-bit engine: two
    succeed, the third stops at [u64::MAX - 1]. *)
Lemma pop_loop_stops_64_witness :
  exists u', run (repeat (IncrSp 4) 3) (ctx arch64 [(29, 2 ^ 64 - 10)]) = (u', Err EXCEPTION) /\
             unicorn_sp u' = Ok (u64_max - (u64_max - (2 ^ 64 - 10)) mod 4).
Proof.
  refine (pop_loop_stops_64 4 (2 ^ 64 - 10) 3 (ctx arch64 [(29, 2 ^ 64 - 10)])
            eq_refl eq_refl _ eq_refl _); simpl; lia.
Defined.

(** Two pops of 16 bytes from SP 0xFFFFFFF8 on MIPS32: both succeed, and
    SP wraps to 24. *)
Lemma pop_loop_wraps_32_witness :
  exists u' xs, run (repeat (IncrSp 16) 2) (ctx arch32 [(29, 4294967288)]) = (u', Ok xs) /\
                unicorn_sp u' = Ok ((4294967288 + Z.of_nat 2 * 16) mod 2 ^ 32).
Proof.
  refine (pop_loop_wraps_32 16 4294967288 2 (ctx arch32 [(29, 4294967288)])
            eq_refl eq_refl _ eq_refl); lia.
Defined.

(** A write of register 3, a [set_pc] (PC id 15, SP id 29) and three
    reads leave SP at 4096. *)
Lemma run_sp_frame_witness :
  unicorn_sp (fst (run [Write 3 5; SetPc 4194304; Read (29 : Z); Sp; Pc]
                       (ctx arch32 [(29, 4096)]))) =
    unicorn_sp (ctx arch32 [(29, 4096)]).
Proof.
  exact (run_sp_frame [Write 3 5; SetPc 4194304; Read (29 : Z); Sp; Pc]
           (ctx arch32 [(29, 4096)]) eq_refl).
Defined.
